(** * A console key-value database with nested transactions

    Shallow embedding of [main.py]: the command validator
    [validate_operation] and the interactive interpreter [operate].

    Modelling choices.
    - A Python [str] is a [string]: the bytes of its UTF-8 encoding.
      Splitting on the space character, comparing and joining act on the
      encoding exactly as they act on the text.  [str.upper] is the one
      operation used by the program that is not bytewise; it is a
      parameter of the development ([upper]) and [str_upper_ascii] is its
      instance on ASCII text.
    - A Python [dict] keeps its keys in insertion order, which [FIND]
      exposes, so a dictionary is an association list with the update
      discipline of [dict]: assignment to a present key keeps its place,
      assignment to a new key appends, [pop] removes.
    - Dictionaries are mutable objects handled by reference: the
      interpreter state has a [heap] of dictionaries, the variable
      [database] of a call of [operate] holds a reference, and
      [copy(database)] allocates a new object.
    - The console is a list of pending events for [input] and the list of
      chunks written so far by [input] (its prompt) and [print].
    - [KeyboardInterrupt] is taken where the program waits, in [input].
    - The depth of calls is unbounded: every [BEGIN] is a call of
      [operate] inside the one that reads it, and the limit an
      interpreter puts on the depth of calls, past which it raises a
      [RecursionError] that nothing in the program catches, is not
      modelled.  What is proved is about the runs that stay below it.
    - [operate] loops for ever and calls itself on [BEGIN]; the loop is a
      function with fuel, [operate_fuel], and [operate_loop] runs it with
      the fuel the pending input requires. *)

From Stdlib Require Import String Ascii List Bool Arith Lia DecimalString.
From stdpp Require Import base list.

Open Scope string_scope.
Open Scope list_scope.

(** ** Strings *)

Definition newline : string := String (ascii_of_nat 10) EmptyString.

(** [s.split(sep)] for a separator of one character: the fields between
    the occurrences of [sep], empty fields included. *)
Fixpoint split (sep : ascii) (s : string) : list string :=
  match s with
  | EmptyString => [EmptyString]
  | String c rest =>
      if Ascii.eqb c sep then EmptyString :: split sep rest
      else match split sep rest with
           | field :: fields => String c field :: fields
           | [] => [String c EmptyString]
           end
  end.

(** [sep.join(items)] *)
Definition join (sep : string) (items : list string) : string :=
  String.concat sep items.

(** [str(n)] for a natural number: its decimal numeral. *)
Definition str_of_nat (n : nat) : string :=
  NilZero.string_of_uint (Nat.to_uint n).

(** [str.upper] on ASCII text: the letters a-z go to A-Z and every other
    character stays. *)
Definition upper_ascii (c : ascii) : ascii :=
  let n := nat_of_ascii c in
  if ((97 <=? n) && (n <=? 122))%nat then ascii_of_nat (n - 32) else c.

Fixpoint str_upper_ascii (s : string) : string :=
  match s with
  | EmptyString => EmptyString
  | String c rest => String (upper_ascii c) (str_upper_ascii rest)
  end.

(** ** Dictionaries *)

(** A [dict] with [str] keys, in insertion order. *)
Abbreviation dict V := (list (string * V)) (only parsing).

(** [d[key] = value] *)
Fixpoint setitem {V} (key : string) (value : V) (d : dict V) : dict V :=
  match d with
  | [] => [(key, value)]
  | (k, v) :: rest =>
      if k =? key then (k, value) :: rest
      else (k, v) :: setitem key value rest
  end.

(** [d.get(key)], [None] when the key is absent. *)
Fixpoint getitem {V} (key : string) (d : dict V) : option V :=
  match d with
  | [] => None
  | (k, v) :: rest => if k =? key then Some v else getitem key rest
  end.

(** [d.get(key, fallback)] *)
Definition get {V} (key : string) (fallback : V) (d : dict V) : V :=
  match getitem key d with
  | Some v => v
  | None => fallback
  end.

(** [key in d] *)
Definition contains {V} (key : string) (d : dict V) : bool :=
  match getitem key d with
  | Some _ => true
  | None => false
  end.

(** [d.pop(key, fallback)], as a statement: the dictionary that is left. *)
Fixpoint pop {V} (key : string) (d : dict V) : dict V :=
  match d with
  | [] => []
  | (k, v) :: rest => if k =? key then rest else (k, v) :: pop key rest
  end.

Definition keys {V} (d : dict V) : list string := map fst d.
Definition values {V} (d : dict V) : list V := map snd d.
Definition items {V} (d : dict V) : list (string * V) := d.

(** The keys of a [dict] are pairwise distinct. *)
Definition well_formed {V} (d : dict V) : Prop := List.NoDup (keys d).

(** ** Commands and their lengths *)

Module Command.
Definition SET := "SET".
Definition GET := "GET".
Definition UNSET := "UNSET".
Definition COUNTS := "COUNTS".
Definition FIND := "FIND".
Definition END := "END".
Definition BEGIN := "BEGIN".
Definition ROLLBACK := "ROLLBACK".
Definition COMMIT := "COMMIT".
End Command.

Module CommandLength.
Definition SET := 3.
Definition GET := 2.
Definition UNSET := 2.
Definition COUNTS := 2.
Definition FIND := 2.
Definition END := 1.
Definition BEGIN := 1.
Definition ROLLBACK := 1.
Definition COMMIT := 1.
End CommandLength.

(** The table of the lengths, filled by nine assignments. *)
Definition operation_command_length : dict nat :=
  setitem Command.COMMIT CommandLength.COMMIT
  (setitem Command.ROLLBACK CommandLength.ROLLBACK
  (setitem Command.BEGIN CommandLength.BEGIN
  (setitem Command.END CommandLength.END
  (setitem Command.FIND CommandLength.FIND
  (setitem Command.COUNTS CommandLength.COUNTS
  (setitem Command.UNSET CommandLength.UNSET
  (setitem Command.GET CommandLength.GET
  (setitem Command.SET CommandLength.SET [])))))))).

(** ** Exceptions and results *)

Inductive exception : Type :=
  | ExitException
  | CommandValidationException
  | TransactionRollbackException.

Inductive completion (A : Type) : Type :=
  | Return (a : A)
  | Raise (e : exception).
Arguments Return {A} a.
Arguments Raise {A} e.

(** ** The interpreter state *)

(** A reference is the index of an object in the heap. *)
Abbreviation ref := nat (only parsing).

Inductive console_event : Type :=
  | Typed (raw : string)
  | EOFError
  | KeyboardInterrupt.

Record world : Type := World {
  heap : list (dict string);
  stdin : list console_event;
  stdout : list string
}.

(** The dictionary a reference points to. *)
Definition load (r : ref) (w : world) : dict string :=
  default [] (heap w !! r).

(** In-place update of the dictionary a reference points to. *)
Definition store (r : ref) (d : dict string) (w : world) : world :=
  World (<[r := d]> (heap w)) (stdin w) (stdout w).

(** Allocation of a new dictionary object. *)
Definition alloc (d : dict string) (w : world) : ref * world :=
  (length (heap w), World (heap w ++ [d]) (stdin w) (stdout w)).

(** [copy(database)]: a new object with the same items. *)
Definition copy (database : ref) (w : world) : ref * world :=
  alloc (load database w) w.

Definition write (chunk : string) (w : world) : world :=
  World (heap w) (stdin w) (stdout w ++ [chunk]).

(** [print(text)] *)
Definition print (text : string) (w : world) : world :=
  write (String.append text newline) w.

(** [input(prompt)]: writes the prompt, then gives the next line, or
    nothing when [EOFError] or [KeyboardInterrupt] is raised; the end of
    the pending events is the end of the input. *)
Definition input (prompt : string) (w : world) : option string * world :=
  let w := write prompt w in
  match stdin w with
  | Typed raw :: rest => (Some raw, World (heap w) rest (stdout w))
  | _ :: rest => (None, World (heap w) rest (stdout w))
  | [] => (None, w)
  end.

Definition validation_message : string :=
  "Неизвестная команда или неправильное количество аргументов".
Definition transaction_message : string :=
  "Нет текущей транзакции".

(** The tokens of a line:
    [list(filter(lambda x: x != "", raw_operation.split(" ")))] *)
Definition tokens (raw_operation : string) : list string :=
  List.filter (fun x => negb (x =? "")) (split " "%char raw_operation).

(** The [COUNTS] loop. *)
Definition count_value (value : string) (database : dict string) : nat :=
  fold_left (fun counter v => if v =? value then counter + 1 else counter)
            (values database) 0.

(** The [FIND] loop. *)
Definition find_value (value : string) (database : dict string) : list string :=
  fold_left (fun commands kv => if snd kv =? value then commands ++ [fst kv]
                                else commands)
            (items database) [].

(** What one turn of the [while True] loop does next. *)
Inductive control : Type :=
  | Continue (w : world)
  | Begin (copied : ref) (w : world)
  | Leave (result : completion ref) (w : world).

Section Interpreter.

(** [str.upper] *)
Variable upper : string -> string.

Definition validate_operation (operation : list string) : completion unit :=
  match operation with
  | first :: _ =>
      let command := upper first in
      if contains command operation_command_length then
        if Nat.eqb (get command 0 operation_command_length) (length operation)
        then Return tt
        else Raise CommandValidationException
      else Raise CommandValidationException
  | [] => Raise CommandValidationException
  end.

(** The body of the loop of [operate]. *)
Definition turn (database : ref) (is_transaction : bool) (w : world) : control :=
  match input "> " w with
  | (None, w) => Leave (Raise ExitException) w
  | (Some raw_operation, w) =>
      let operation := tokens raw_operation in
      match validate_operation operation with
      | Raise _ => Continue (print validation_message w)
      | Return _ =>
          let command := upper (nth 0 operation "") in
          if command =? Command.SET then
            let key := nth 1 operation "" in
            let value := nth 2 operation "" in
            Continue (store database (setitem key value (load database w)) w)
          else if command =? Command.GET then
            let key := nth 1 operation "" in
            let value := get key "NULL" (load database w) in
            Continue (print value w)
          else if command =? Command.UNSET then
            let key := nth 1 operation "" in
            Continue (store database (pop key (load database w)) w)
          else if command =? Command.COUNTS then
            let value := nth 1 operation "" in
            Continue (print (str_of_nat (count_value value (load database w))) w)
          else if command =? Command.FIND then
            let value := nth 1 operation "" in
            Continue (print (join ", " (find_value value (load database w))) w)
          else if command =? Command.END then
            Leave (Raise ExitException) w
          else if command =? Command.BEGIN then
            let (copied, w) := copy database w in Begin copied w
          else if command =? Command.ROLLBACK then
            if negb is_transaction then Continue (print transaction_message w)
            else Leave (Raise TransactionRollbackException) w
          else if command =? Command.COMMIT then
            if negb is_transaction then Continue (print transaction_message w)
            else Leave (Return database) w
          else Continue w
      end
  end.

(** The loop of [operate]; [None] when the fuel runs out.  The call on
    [BEGIN] is made whatever the number of calls already open. *)
Fixpoint operate_fuel (fuel : nat) (database : ref) (is_transaction : bool)
    (w : world) : option (completion ref * world) :=
  match fuel with
  | 0 => None
  | S fuel =>
      match turn database is_transaction w with
      | Continue w => operate_fuel fuel database is_transaction w
      | Leave result w => Some (result, w)
      | Begin copied w =>
          match operate_fuel fuel copied true w with
          | Some (Return database, w) =>
              operate_fuel fuel database is_transaction w
          | Some (Raise TransactionRollbackException, w) =>
              operate_fuel fuel database is_transaction w
          | Some (Raise e, w) => Some (Raise e, w)
          | None => None
          end
      end
  end.

(** The loop with the fuel its input requires: every turn takes one event. *)
Definition operate_loop (database : ref) (is_transaction : bool) (w : world)
    : completion ref * world :=
  match operate_fuel (S (length (stdin w))) database is_transaction w with
  | Some result => result
  | None => (Raise ExitException, w)
  end.

(** [operate(database, is_transaction)] *)
Definition operate (database : option ref) (is_transaction : bool) (w : world)
    : completion ref * world :=
  match database with
  | None => let (database, w) := alloc [] w in operate_loop database is_transaction w
  | Some database => operate_loop database is_transaction w
  end.

(** The program: [operate()], with [ExitException] caught. *)
Definition main (w : world) : completion unit * world :=
  match operate None false w with
  | (Raise ExitException, w) => (Return tt, w)
  | (Raise e, w) => (Raise e, w)
  | (Return _, w) => (Return tt, w)
  end.


(** [reads name args raw]: the line [raw] has the tokens [c :: args] for a
    first token [c] that [upper] sends to [name]. *)
Fixpoint same_tokens (xs ys : list string) : bool :=
  match xs, ys with
  | [], [] => true
  | x :: xs, y :: ys => (x =? y) && same_tokens xs ys
  | _, _ => false
  end.

Definition reads (name : string) (args : list string) (raw : string) : bool :=
  match tokens raw with
  | c :: rest => (upper c =? name) && same_tokens rest args
  | [] => false
  end.

(** [reaches allowed tx d w d' w']: the loop of a call of [operate] with
    flag [tx], at its head with [database = d] in the world [w], is at its
    head again with [database = d'] in the world [w'], after turns of this
    call and whole transactions, begun and then committed or rolled back.
    Every line of a turn that went on to the next one, in this call or in
    those transactions, satisfies [allowed]. *)
Inductive reaches (allowed : string -> bool)
    : bool -> ref -> world -> ref -> world -> Prop :=
  | reaches_here tx d w : reaches allowed tx d w d w
  | reaches_turn tx d w raw w1 d' w' :
      head (stdin w) = Some (Typed raw) ->
      allowed raw = true ->
      turn d tx w = Continue w1 ->
      reaches allowed tx d w1 d' w' ->
      reaches allowed tx d w d' w'
  | reaches_commit tx d w c w1 d2 w2 w3 d' w' :
      turn d tx w = Begin c w1 ->
      reaches allowed true c w1 d2 w2 ->
      turn d2 true w2 = Leave (Return d2) w3 ->
      reaches allowed tx d2 w3 d' w' ->
      reaches allowed tx d w d' w'
  | reaches_rollback tx d w c w1 d2 w2 w3 d' w' :
      turn d tx w = Begin c w1 ->
      reaches allowed true c w1 d2 w2 ->
      turn d2 true w2 = Leave (Raise TransactionRollbackException) w3 ->
      reaches allowed tx d w3 d' w' ->
      reaches allowed tx d w d' w'.

Definition any_line (raw : string) : bool := true.

(** [inside tx d w n tx' d' w']: from the head of the loop of a call with
    flag [tx], the program is at the head of the loop of a call [n] levels
    deeper, each level entered by a [BEGIN] that is still open. *)
Inductive inside
    : bool -> ref -> world -> nat -> bool -> ref -> world -> Prop :=
  | inside_here tx d w d' w' :
      reaches any_line tx d w d' w' ->
      inside tx d w 0 tx d' w'
  | inside_begin tx d w d1 w1 c w2 n tx' d' w' :
      reaches any_line tx d w d1 w1 ->
      turn d1 tx w1 = Begin c w2 ->
      inside true c w2 n tx' d' w' ->
      inside tx d w (S n) tx' d' w'.

(** [touches k raw]: the line [raw] is a [SET] or an [UNSET] of the key
    [k]. *)
Definition touches (k : string) (raw : string) : bool :=
  match tokens raw with
  | [c; key; _] => (upper c =? Command.SET) && (key =? k)
  | [c; key] => (upper c =? Command.UNSET) && (key =? k)
  | _ => false
  end.

Definition keeps (k : string) (raw : string) : bool := negb (touches k raw).

(** The pending input makes the next [input] raise, or its next line is
    an [END]. *)
Definition ends_session (pending : list console_event) : bool :=
  match pending with
  | [] => true
  | EOFError :: _ => true
  | KeyboardInterrupt :: _ => true
  | Typed raw :: _ => reads Command.END [] raw
  end.

(** A string without the space character. *)
Fixpoint space_free (s : string) : bool :=
  match s with
  | EmptyString => true
  | String c rest => negb (Ascii.eqb c " "%char) && space_free rest
  end.

(** The horizontal tab, a whitespace character that is not the space. *)
Definition tab : string := String (ascii_of_nat 9) EmptyString.


(** The line [SET a b] typed with tabs for spaces. *)
Definition tabbed_line : string :=
  String.append "SET" (String.append tab (String.append "a"
    (String.append tab "b"))).

(** [mutates raw]: the line [raw] is a [SET] or an [UNSET]. *)
Definition mutates (raw : string) : bool :=
  match tokens raw with
  | [c; _; _] => upper c =? Command.SET
  | [c; _] => upper c =? Command.UNSET
  | _ => false
  end.

Definition read_only (raw : string) : bool := negb (mutates raw).

(** The output [out] followed by [n] prompts. *)
Definition prompted (n : nat) (out : list string) : list string :=
  Nat.iter n (fun o => o ++ ["> "]) out.

(** [undisturbed k tx d w d' w']: as [reaches], for the runs that put no
    other value at the key [k]: the turns of the call read no [SET k] and
    no [UNSET k], nor do the transactions that are committed; a
    transaction that ends by [ROLLBACK] may read anything. *)
Inductive undisturbed (k : string)
    : bool -> ref -> world -> ref -> world -> Prop :=
  | undisturbed_here tx d w : undisturbed k tx d w d w
  | undisturbed_turn tx d w raw w1 d' w' :
      head (stdin w) = Some (Typed raw) ->
      keeps k raw = true ->
      turn d tx w = Continue w1 ->
      undisturbed k tx d w1 d' w' ->
      undisturbed k tx d w d' w'
  | undisturbed_commit tx d w c w1 d2 w2 w3 d' w' :
      turn d tx w = Begin c w1 ->
      undisturbed k true c w1 d2 w2 ->
      turn d2 true w2 = Leave (Return d2) w3 ->
      undisturbed k tx d2 w3 d' w' ->
      undisturbed k tx d w d' w'
  | undisturbed_rollback tx d w c w1 w3 d' w' :
      turn d tx w = Begin c w1 ->
      operate_loop c true w1 = (Raise TransactionRollbackException, w3) ->
      undisturbed k tx d w3 d' w' ->
      undisturbed k tx d w d' w'.

(** * Properties *)

Lemma same_tokens_eq xs ys : same_tokens xs ys = true -> xs = ys.
Proof.
  revert ys; induction xs as [|x xs IH]; intros [|y ys]; simpl; try discriminate; auto.
  intros H. apply andb_prop in H as [Hx Hr].
  apply String.eqb_eq in Hx. f_equal; auto.
Qed.

Lemma reads_tokens name args raw :
  reads name args raw = true ->
  exists c, tokens raw = c :: args /\ upper c = name.
Proof.
  unfold reads. destruct (tokens raw) as [|c rest]; [discriminate|].
  intros H. apply andb_prop in H as [Hc Hr].
  apply String.eqb_eq in Hc. apply same_tokens_eq in Hr. subst. eauto.
Qed.

Ltac read_line H :=
  let c := fresh "c" in
  let Htok := fresh "Htok" in
  let Hup := fresh "Hup" in
  apply reads_tokens in H as (c & Htok & Hup);
  unfold turn, input, write; cbn [stdin heap stdout];
  rewrite Htok; unfold validate_operation;
  cbn [nth]; rewrite !Hup; cbn.

Lemma turn_SET d tx h raw rest out k v :
  reads Command.SET [k; v] raw = true ->
  turn d tx (World h (Typed raw :: rest) out)
  = Continue (World (<[d := setitem k v (default [] (h !! d))]> h) rest
                    (out ++ ["> "])).
Proof. intros H. read_line H. reflexivity. Qed.

Lemma turn_GET d tx h raw rest out k :
  reads Command.GET [k] raw = true ->
  turn d tx (World h (Typed raw :: rest) out)
  = Continue (World h rest
       ((out ++ ["> "])
        ++ [String.append (get k "NULL" (default [] (h !! d))) newline])).
Proof. intros H. read_line H. reflexivity. Qed.

Lemma turn_UNSET d tx h raw rest out k :
  reads Command.UNSET [k] raw = true ->
  turn d tx (World h (Typed raw :: rest) out)
  = Continue (World (<[d := pop k (default [] (h !! d))]> h) rest
                    (out ++ ["> "])).
Proof. intros H. read_line H. reflexivity. Qed.

Lemma turn_COUNTS d tx h raw rest out v :
  reads Command.COUNTS [v] raw = true ->
  turn d tx (World h (Typed raw :: rest) out)
  = Continue (World h rest
       ((out ++ ["> "])
        ++ [String.append (str_of_nat (count_value v (default [] (h !! d))))
                          newline])).
Proof. intros H. read_line H. reflexivity. Qed.

Lemma turn_FIND d tx h raw rest out v :
  reads Command.FIND [v] raw = true ->
  turn d tx (World h (Typed raw :: rest) out)
  = Continue (World h rest
       ((out ++ ["> "])
        ++ [String.append (join ", " (find_value v (default [] (h !! d))))
                          newline])).
Proof. intros H. read_line H. reflexivity. Qed.

Lemma turn_END d tx h raw rest out :
  reads Command.END [] raw = true ->
  turn d tx (World h (Typed raw :: rest) out)
  = Leave (Raise ExitException) (World h rest (out ++ ["> "])).
Proof. intros H. read_line H. reflexivity. Qed.

Lemma turn_BEGIN d tx h raw rest out :
  reads Command.BEGIN [] raw = true ->
  turn d tx (World h (Typed raw :: rest) out)
  = Begin (length h)
          (World (h ++ [default [] (h !! d)]) rest (out ++ ["> "])).
Proof. intros H. read_line H. reflexivity. Qed.

Lemma turn_ROLLBACK_inside d h raw rest out :
  reads Command.ROLLBACK [] raw = true ->
  turn d true (World h (Typed raw :: rest) out)
  = Leave (Raise TransactionRollbackException)
          (World h rest (out ++ ["> "])).
Proof. intros H. read_line H. reflexivity. Qed.

Lemma turn_ROLLBACK_outside d h raw rest out :
  reads Command.ROLLBACK [] raw = true ->
  turn d false (World h (Typed raw :: rest) out)
  = Continue (World h rest
       ((out ++ ["> "]) ++ [String.append transaction_message newline])).
Proof. intros H. read_line H. reflexivity. Qed.

Lemma turn_COMMIT_inside d h raw rest out :
  reads Command.COMMIT [] raw = true ->
  turn d true (World h (Typed raw :: rest) out)
  = Leave (Return d) (World h rest (out ++ ["> "])).
Proof. intros H. read_line H. reflexivity. Qed.



Lemma turn_no_line d tx h out :
  turn d tx (World h [] out)
  = Leave (Raise ExitException) (World h [] (out ++ ["> "])).
Proof. reflexivity. Qed.

Lemma turn_EOFError d tx h rest out :
  turn d tx (World h (EOFError :: rest) out)
  = Leave (Raise ExitException) (World h rest (out ++ ["> "])).
Proof. reflexivity. Qed.

Lemma turn_KeyboardInterrupt d tx h rest out :
  turn d tx (World h (KeyboardInterrupt :: rest) out)
  = Leave (Raise ExitException) (World h rest (out ++ ["> "])).
Proof. reflexivity. Qed.

(** What a turn does to the pending input and to the heap, whatever the
    line is. *)
Lemma turn_effect d tx w :
  match turn d tx w with
  | Continue w1 =>
      (exists raw, stdin w = Typed raw :: stdin w1)
      /\ length (heap w1) = length (heap w)
      /\ (forall a, a <> d -> heap w1 !! a = heap w !! a)
  | Begin c w1 =>
      (exists raw, stdin w = Typed raw :: stdin w1)
      /\ c = length (heap w)
      /\ heap w1 = heap w ++ [load d w]
  | Leave r w1 =>
      length (stdin w1) <= length (stdin w)
      /\ heap w1 = heap w
      /\ (forall d', r = Return d' -> d' = d /\ tx = true)
      /\ (r = Raise ExitException
          \/ tx = true /\ (r = Return d
                            \/ r = Raise TransactionRollbackException))
  end.
Proof.
  destruct w as [h inp out]. unfold turn, input, write; cbn [stdin heap stdout].
  destruct inp as [|[raw| |] rest]; cbn [stdin heap stdout length];
    try (split; [lia | split; [reflexivity | split; [intros ? [=] | auto]]]).
  destruct (validate_operation (tokens raw)).
  2:{ cbn. split; [eauto | split; [reflexivity | auto]]. }
  destruct tx; cbn [negb];
  repeat match goal with
         | |- context [if ?b then _ else _] => destruct b
         end;
    unfold store, print, write, copy, alloc, load;
    cbn [stdin heap stdout fst snd length];
    repeat split; eauto; try lia; try apply length_insert;
    try (intros; apply list_lookup_insert_ne; congruence);
    try discriminate; try congruence.
Qed.

(** ** Fuel *)

Lemma operate_fuel_S fuel d tx w :
  operate_fuel (S fuel) d tx w
  = match turn d tx w with
    | Continue w => operate_fuel fuel d tx w
    | Leave result w => Some (result, w)
    | Begin copied w =>
        match operate_fuel fuel copied true w with
        | Some (Return database, w) => operate_fuel fuel database tx w
        | Some (Raise TransactionRollbackException, w) =>
            operate_fuel fuel d tx w
        | Some (Raise e, w) => Some (Raise e, w)
        | None => None
        end
    end.
Proof. reflexivity. Qed.

Lemma operate_fuel_more fuel : forall d tx w r,
  operate_fuel fuel d tx w = Some r -> operate_fuel (S fuel) d tx w = Some r.
Proof.
  induction fuel as [|fuel IH]; intros d tx w r H; [discriminate|].
  rewrite operate_fuel_S in H. rewrite operate_fuel_S.
  destruct (turn d tx w) as [w1|c w1|res w1]; auto.
  destruct (operate_fuel fuel c true w1) as [[[d2|e] w2]|] eqn:E;
    try discriminate; rewrite (IH _ _ _ _ E); [auto|].
  destruct e; auto.
Qed.

Lemma operate_fuel_le fuel fuel' d tx w r :
  fuel <= fuel' ->
  operate_fuel fuel d tx w = Some r -> operate_fuel fuel' d tx w = Some r.
Proof.
  intros Hle Hr. induction Hle; [assumption|].
  apply operate_fuel_more; assumption.
Qed.

(** With more fuel than pending events the loop ends, and it has not put
    anything back into the input. *)
Lemma operate_fuel_ends fuel : forall d tx w,
  length (stdin w) < fuel ->
  exists r w', operate_fuel fuel d tx w = Some (r, w')
               /\ length (stdin w') <= length (stdin w).
Proof.
  induction fuel as [|fuel IH]; intros d tx w Hlen; [lia|].
  rewrite operate_fuel_S. pose proof (turn_effect d tx w) as He.
  destruct (turn d tx w) as [w1|c w1|res w1].
  - destruct He as ([raw Hin] & _). rewrite Hin in *. cbn [length] in *.
    destruct (IH d tx w1) as (r & w' & Hr & Hl); [lia|].
    exists r, w'. split; [assumption | lia].
  - destruct He as ([raw Hin] & _). rewrite Hin in *. cbn [length] in *.
    destruct (IH c true w1) as (r1 & w2 & Hr1 & Hl1); [lia|].
    rewrite Hr1. destruct r1 as [d2|e].
    + destruct (IH d2 tx w2) as (r & w' & Hr & Hl); [lia|].
      exists r, w'. split; [assumption | lia].
    + destruct e.
      * exists (Raise ExitException), w2. split; [reflexivity | lia].
      * exists (Raise CommandValidationException), w2.
        split; [reflexivity | lia].
      * destruct (IH d tx w2) as (r & w' & Hr & Hl); [lia|].
        exists r, w'. split; [assumption | lia].
  - destruct He as (Hl & _). exists res, w1. split; [reflexivity | assumption].
Qed.

(** [operate_loop] is the result of the loop for any sufficient fuel. *)
Lemma operate_fuel_loop fuel d tx w :
  length (stdin w) < fuel ->
  operate_fuel fuel d tx w = Some (operate_loop d tx w).
Proof.
  intros Hlen.
  destruct (operate_fuel_ends (S (length (stdin w))) d tx w) as (r & w' & Hr & _);
    [lia|].
  unfold operate_loop. rewrite Hr.
  apply operate_fuel_le with (fuel := S (length (stdin w))); [lia | assumption].
Qed.

Lemma operate_loop_stdin d tx w :
  length (stdin (snd (operate_loop d tx w))) <= length (stdin w).
Proof.
  destruct (operate_fuel_ends (S (length (stdin w))) d tx w) as (r & w' & Hr & Hl);
    [lia|].
  unfold operate_loop. rewrite Hr. assumption.
Qed.

(** ** The equations of the loop *)

Lemma loop_Continue d tx w w1 :
  turn d tx w = Continue w1 ->
  operate_loop d tx w = operate_loop d tx w1.
Proof.
  intros Ht. pose proof (turn_effect d tx w) as He. rewrite Ht in He.
  destruct He as ([raw Hin] & _).
  pose proof (operate_fuel_loop (S (length (stdin w))) d tx w
                (Nat.lt_succ_diag_r _)) as H.
  rewrite operate_fuel_S, Ht in H.
  rewrite (operate_fuel_loop (length (stdin w)) d tx w1) in H;
    [| rewrite Hin; cbn [length]; lia].
  congruence.
Qed.

Lemma loop_Leave d tx w res w1 :
  turn d tx w = Leave res w1 ->
  operate_loop d tx w = (res, w1).
Proof.
  intros Ht.
  pose proof (operate_fuel_loop (S (length (stdin w))) d tx w
                (Nat.lt_succ_diag_r _)) as H.
  rewrite operate_fuel_S, Ht in H. congruence.
Qed.

Lemma loop_Begin d tx w c w1 :
  turn d tx w = Begin c w1 ->
  operate_loop d tx w
  = match operate_loop c true w1 with
    | (Return database, w2) => operate_loop database tx w2
    | (Raise TransactionRollbackException, w2) => operate_loop d tx w2
    | (Raise e, w2) => (Raise e, w2)
    end.
Proof.
  intros Ht. pose proof (turn_effect d tx w) as He. rewrite Ht in He.
  destruct He as ([raw Hin] & _).
  pose proof (operate_fuel_loop (S (length (stdin w))) d tx w
                (Nat.lt_succ_diag_r _)) as H.
  rewrite operate_fuel_S, Ht in H.
  assert (Hl1 : length (stdin w1) < length (stdin w))
    by (rewrite Hin; cbn [length]; lia).
  rewrite (operate_fuel_loop (length (stdin w)) c true w1 Hl1) in H.
  pose proof (operate_loop_stdin c true w1) as Hl2.
  destruct (operate_loop c true w1) as [[d2|e] w2]; cbn [snd] in Hl2.
  - rewrite (operate_fuel_loop (length (stdin w)) d2 tx w2) in H by lia.
    congruence.
  - destruct e.
    + congruence.
    + congruence.
    + rewrite (operate_fuel_loop (length (stdin w)) d tx w2) in H by lia.
      congruence.
Qed.

(** ** The heap: what a call of [operate] leaves alone *)

(** A call working on the object [d] changes no other object that exists
    when it starts; the object it returns is [d] or one it allocated. *)
Lemma operate_fuel_frame fuel : forall d tx w r w',
  operate_fuel fuel d tx w = Some (r, w') ->
  d < length (heap w) ->
  length (heap w) <= length (heap w')
  /\ (forall a, a < length (heap w) -> a <> d -> heap w' !! a = heap w !! a)
  /\ (forall d', r = Return d' ->
        d' < length (heap w') /\ (d' = d \/ length (heap w) <= d')).
Proof.
  induction fuel as [|fuel IH]; intros d tx w r w' H Hd; [discriminate|].
  rewrite operate_fuel_S in H. pose proof (turn_effect d tx w) as He.
  destruct (turn d tx w) as [w1|c w1|res w1].
  - destruct He as (_ & Hlen & Hsame).
    destruct (IH _ _ _ _ _ H) as (Hl & Hf & Hret); [lia|].
    rewrite Hlen in *. split; [assumption|]. split; [|assumption].
    intros a Ha Hne. rewrite Hf by assumption. auto.
  - destruct He as (_ & -> & Hheap).
    assert (Hlen1 : length (heap w1) = S (length (heap w)))
      by (rewrite Hheap, length_app; cbn [length]; lia).
    assert (Hold : forall a, a < length (heap w) -> heap w1 !! a = heap w !! a)
      by (intros a Ha; rewrite Hheap; apply lookup_app_l; assumption).
    destruct (operate_fuel fuel (length (heap w)) true w1)
      as [[[d2|e] w2]|] eqn:E; try discriminate.
    + destruct (IH _ _ _ _ _ E) as (Hl1 & Hf1 & Hret1); [lia|].
      destruct (Hret1 d2 eq_refl) as (Hd2 & Hfresh).
      destruct (IH _ _ _ _ _ H Hd2) as (Hl & Hf & Hret).
      split; [lia|]. split.
      * intros a Ha Hne. rewrite Hf by lia. rewrite Hf1 by lia. auto.
      * intros d' Hr. destruct (Hret d' Hr) as (Hd' & Hor). split; [assumption|].
        right. lia.
    + destruct (IH _ _ _ _ _ E) as (Hl1 & Hf1 & _); [lia|].
      destruct e.
      * injection H as <- <-. split; [lia|]. split; [|discriminate].
        intros a Ha Hne. rewrite Hf1 by lia. auto.
      * injection H as <- <-. split; [lia|]. split; [|discriminate].
        intros a Ha Hne. rewrite Hf1 by lia. auto.
      * destruct (IH _ _ _ _ _ H) as (Hl & Hf & Hret); [lia|].
        split; [lia|]. split.
        -- intros a Ha Hne. rewrite Hf by lia. rewrite Hf1 by lia. auto.
        -- intros d' Hr. destruct (Hret d' Hr) as (Hd' & Hor).
           split; [assumption|]. destruct Hor; [left; assumption | right; lia].
  - destruct He as (_ & Hheap & Hret & _). injection H as <- <-.
    rewrite Hheap. split; [lia|]. split; [auto|].
    intros d' Hr. destruct (Hret d' Hr) as (-> & _). split; [assumption | auto].
Qed.

Lemma operate_loop_frame d tx w r w' :
  operate_loop d tx w = (r, w') ->
  d < length (heap w) ->
  length (heap w) <= length (heap w')
  /\ (forall a, a < length (heap w) -> a <> d -> heap w' !! a = heap w !! a)
  /\ (forall d', r = Return d' ->
        d' < length (heap w') /\ (d' = d \/ length (heap w) <= d')).
Proof.
  intros H. apply (operate_fuel_frame (S (length (stdin w))) d tx).
  rewrite operate_fuel_loop by lia. congruence.
Qed.

(** A transaction leaves every object that existed at its [BEGIN] as it
    was, however it ends. *)
Lemma transaction_frame d tx w c w1 r w2 :
  turn d tx w = Begin c w1 ->
  operate_loop c true w1 = (r, w2) ->
  forall a, a < length (heap w) -> heap w2 !! a = heap w !! a.
Proof.
  intros Ht Hr a Ha. pose proof (turn_effect d tx w) as He. rewrite Ht in He.
  destruct He as (_ & -> & Hheap).
  destruct (operate_loop_frame _ _ _ _ _ Hr) as (_ & Hf & _).
  - rewrite Hheap, length_app. cbn [length]. lia.
  - rewrite Hf.
    + rewrite Hheap. apply lookup_app_l. assumption.
    + rewrite Hheap, length_app. cbn [length]. lia.
    + lia.
Qed.

(** ** Runs of the loop *)

Lemma reaches_loop allowed tx d w d' w' :
  reaches allowed tx d w d' w' ->
  operate_loop d tx w = operate_loop d' tx w'.
Proof.
  induction 1 as [tx d w
                 | tx d w raw w1 d' w' _ _ Ht _ IH
                 | tx d w c w1 d2 w2 w3 d' w' Ht _ IHin Hl _ IH
                 | tx d w c w1 d2 w2 w3 d' w' Ht _ IHin Hl _ IH].
  - reflexivity.
  - rewrite (loop_Continue _ _ _ _ Ht). assumption.
  - rewrite (loop_Begin _ _ _ _ _ Ht), IHin, (loop_Leave _ _ _ _ _ Hl).
    assumption.
  - rewrite (loop_Begin _ _ _ _ _ Ht), IHin, (loop_Leave _ _ _ _ _ Hl).
    assumption.
Qed.

Lemma reaches_trans allowed tx d w d1 w1 d2 w2 :
  reaches allowed tx d w d1 w1 ->
  reaches allowed tx d1 w1 d2 w2 ->
  reaches allowed tx d w d2 w2.
Proof.
  induction 1; intros Hnext; [assumption | | | ].
  - eapply reaches_turn; eauto.
  - eapply reaches_commit; eauto.
  - eapply reaches_rollback; eauto.
Qed.

Lemma reaches_any allowed tx d w d' w' :
  reaches allowed tx d w d' w' -> reaches any_line tx d w d' w'.
Proof.
  induction 1.
  - apply reaches_here.
  - eapply reaches_turn; eauto.
  - eapply reaches_commit; eauto.
  - eapply reaches_rollback; eauto.
Qed.

(** ** Dictionaries and the heap *)

Lemma getitem_setitem {V} k (v : V) d : getitem k (setitem k v d) = Some v.
Proof.
  induction d as [|[k' v'] d IH]; cbn.
  - rewrite String.eqb_refl. reflexivity.
  - destruct (k' =? k) eqn:E; cbn; rewrite E; auto.
Qed.

Lemma getitem_setitem_other {V} k k' (v : V) d :
  k' <> k -> getitem k (setitem k' v d) = getitem k d.
Proof.
  intros Hne. induction d as [|[k0 v0] d IH]; cbn.
  - destruct (k' =? k) eqn:E; [apply String.eqb_eq in E; contradiction | auto].
  - destruct (k0 =? k') eqn:E; cbn.
    + apply String.eqb_eq in E. subst k0.
      destruct (k' =? k) eqn:E'; [apply String.eqb_eq in E'; contradiction|].
      reflexivity.
    + rewrite IH. reflexivity.
Qed.

Lemma getitem_pop_other {V} k k' (d : dict V) :
  k' <> k -> getitem k (pop k' d) = getitem k d.
Proof.
  intros Hne. induction d as [|[k0 v0] d IH]; cbn; [reflexivity|].
  destruct (k0 =? k') eqn:E; cbn.
  - apply String.eqb_eq in E. subst k0.
    destruct (k' =? k) eqn:E'; [apply String.eqb_eq in E'; contradiction|].
    reflexivity.
  - rewrite IH. reflexivity.
Qed.

Lemma get_setitem k (v fallback : string) d :
  get k fallback (setitem k v d) = v.
Proof. unfold get. rewrite getitem_setitem. reflexivity. Qed.

Lemma lookup_snoc {A} (h : list A) x : (h ++ [x]) !! length h = Some x.
Proof. apply list_lookup_middle. reflexivity. Qed.

Lemma insert_snoc {A} (h : list A) x y : <[length h := y]> (h ++ [x]) = h ++ [y].
Proof.
  replace (length h) with (length h + 0) by lia.
  rewrite insert_app_r. reflexivity.
Qed.

Ltac tidy_heap :=
  rewrite ?lookup_snoc, ?insert_snoc; cbn [default from_option id].

Ltac by_turn lem :=
  eapply reaches_turn;
  [reflexivity | reflexivity | apply lem; eassumption | tidy_heap].

(** ** Commit *)

(** The transaction that a [BEGIN] opened and a [COMMIT] ends: the loop
    that read the [BEGIN] goes on with the object of the transaction. *)
Lemma commit_folds allowed d tx h begin rest out d2 h2 commit rest2 out2 :
  reads Command.BEGIN [] begin = true ->
  reads Command.COMMIT [] commit = true ->
  reaches allowed true (length h)
          (World (h ++ [default [] (h !! d)]) rest (out ++ ["> "]))
          d2 (World h2 (Typed commit :: rest2) out2) ->
  reaches allowed tx d (World h (Typed begin :: rest) out)
          d2 (World h2 rest2 (out2 ++ ["> "])).
Proof.
  intros Hb Hc Hin.
  eapply reaches_commit;
    [apply turn_BEGIN; assumption | exact Hin
    | apply turn_COMMIT_inside; assumption | apply reaches_here].
Qed.

(** The same for a transaction that a [ROLLBACK] ends: the loop that read
    the [BEGIN] goes on with its own object. *)
Lemma rollback_unwinds allowed d tx h begin rest out d2 h2 rollback rest2 out2 :
  reads Command.BEGIN [] begin = true ->
  reads Command.ROLLBACK [] rollback = true ->
  reaches allowed true (length h)
          (World (h ++ [default [] (h !! d)]) rest (out ++ ["> "]))
          d2 (World h2 (Typed rollback :: rest2) out2) ->
  reaches allowed tx d (World h (Typed begin :: rest) out)
          d (World h2 rest2 (out2 ++ ["> "])).
Proof.
  intros Hb Hc Hin.
  eapply reaches_rollback;
    [apply turn_BEGIN; assumption | exact Hin
    | apply turn_ROLLBACK_inside; assumption | apply reaches_here].
Qed.

(** C1. [COMMIT] inside a transaction ends the call of [operate] that the
    [BEGIN] made, which returns its database, and the loop that read the
    [BEGIN] goes on, at its own level, with the returned object as its
    database: the whole content of the transaction replaces the one of
    the parent.  After [BEGIN; SET k v; BEGIN; SET k v2; COMMIT; COMMIT]
    the database holds [v2] at [k], which [GET k] prints; after
    [BEGIN; SET k v; BEGIN; SET k v2; COMMIT; ROLLBACK] the database is
    the object it was, with the items it had, and [GET k] prints what it
    printed before. *)
Theorem commit_replaces_parent_store
    d tx h out rest k v v2
    begin1 set1 begin2 set2 commit1 commit2 rollback2 get1 :
  d < length h ->
  reads Command.BEGIN [] begin1 = true ->
  reads Command.SET [k; v] set1 = true ->
  reads Command.BEGIN [] begin2 = true ->
  reads Command.SET [k; v2] set2 = true ->
  reads Command.COMMIT [] commit1 = true ->
  reads Command.COMMIT [] commit2 = true ->
  reads Command.ROLLBACK [] rollback2 = true ->
  reads Command.GET [k] get1 = true ->
  (forall d1 h1 rest1 out1,
      operate_loop d1 true (World h1 (Typed commit1 :: rest1) out1)
      = (Return d1, World h1 rest1 (out1 ++ ["> "])))
  /\ (forall rest1 d2 w2,
        operate_loop (length h) true
          (World (h ++ [default [] (h !! d)]) rest1 (out ++ ["> "]))
          = (Return d2, w2) ->
        operate_loop d tx (World h (Typed begin1 :: rest1) out)
        = operate_loop d2 tx w2)
  /\ operate_loop d tx
       (World h (Typed begin1 :: Typed set1 :: Typed begin2 :: Typed set2
                 :: Typed commit1 :: Typed commit2 :: Typed get1 :: rest) out)
     = operate_loop (length (h ++ [setitem k v (default [] (h !! d))])) tx
         (World ((h ++ [setitem k v (default [] (h !! d))])
                 ++ [setitem k v2 (setitem k v (default [] (h !! d)))])
                rest (prompted 7 out ++ [String.append v2 newline]))
  /\ ((h ++ [setitem k v (default [] (h !! d))])
       ++ [setitem k v2 (setitem k v (default [] (h !! d)))])
       !! length (h ++ [setitem k v (default [] (h !! d))])
     = Some (setitem k v2 (setitem k v (default [] (h !! d))))
  /\ operate_loop d tx
       (World h (Typed begin1 :: Typed set1 :: Typed begin2 :: Typed set2
                 :: Typed commit1 :: Typed rollback2 :: Typed get1 :: rest)
              out)
     = operate_loop d tx
         (World ((h ++ [setitem k v (default [] (h !! d))])
                 ++ [setitem k v2 (setitem k v (default [] (h !! d)))])
                rest
                (prompted 7 out
                 ++ [String.append (get k "NULL" (default [] (h !! d)))
                                   newline]))
  /\ ((h ++ [setitem k v (default [] (h !! d))])
       ++ [setitem k v2 (setitem k v (default [] (h !! d)))]) !! d
     = h !! d.
Proof.
  intros Hd Hb1 Hs1 Hb2 Hs2 Hc1 Hc2 Hr2 Hg.
  split; [|split; [|split; [|split; [|split]]]].
  - intros d1 h1 rest1 out1. apply loop_Leave, turn_COMMIT_inside. assumption.
  - intros rest1 d2 w2 Hin.
    rewrite (loop_Begin d tx _ _ _ (turn_BEGIN d tx h begin1 rest1 out Hb1)).
    rewrite Hin. reflexivity.
  - etransitivity; [apply (reaches_loop any_line)|reflexivity].
    eapply reaches_trans.
    + eapply commit_folds; [exact Hb1 | exact Hc2 |].
      by_turn turn_SET.
      eapply commit_folds; [exact Hb2 | exact Hc1 |]. tidy_heap.
      by_turn turn_SET. apply reaches_here.
    + by_turn turn_GET. rewrite get_setitem. apply reaches_here.
  - apply lookup_snoc.
  - assert (Hsame : ((h ++ [setitem k v (default [] (h !! d))])
                     ++ [setitem k v2 (setitem k v (default [] (h !! d)))])
                    !! d = h !! d).
    { rewrite <- app_assoc. apply lookup_app_l. assumption. }
    etransitivity; [apply (reaches_loop any_line)|reflexivity].
    eapply reaches_trans.
    + eapply rollback_unwinds; [exact Hb1 | exact Hr2 |].
      by_turn turn_SET.
      eapply commit_folds; [exact Hb2 | exact Hc1 |]. tidy_heap.
      by_turn turn_SET. apply reaches_here.
    + by_turn turn_GET. rewrite Hsame. apply reaches_here.
  - rewrite <- app_assoc. apply lookup_app_l. assumption.
Qed.

(** ** Rollback *)

(** C2. [BEGIN] makes a new object with the items of the database and
    enters a call of [operate] on it; [SET] and [UNSET] change the object
    of the call that reads them and no other; [ROLLBACK] inside a
    transaction ends its call by [TransactionRollbackException], and
    when a transaction ends so, whatever it did, the loop that read the
    [BEGIN] goes on at its own level with its own object, and every
    object that existed at the [BEGIN] is as it was.  After
    [SET k v1; BEGIN; SET k v2; ROLLBACK], [GET k] prints [v1].
    [ROLLBACK] unwinds one level: after [BEGIN; BEGIN; ROLLBACK] a second
    [ROLLBACK] is taken without a message, by the transaction that is
    still open, and after [BEGIN; ROLLBACK] a second [ROLLBACK] finds no
    transaction. *)
Theorem rollback_restores_parent_store
    d tx h out rest k v1 v2 set1 begin set2 rollback get1 :
  d < length h ->
  reads Command.SET [k; v1] set1 = true ->
  reads Command.BEGIN [] begin = true ->
  reads Command.SET [k; v2] set2 = true ->
  reads Command.ROLLBACK [] rollback = true ->
  reads Command.GET [k] get1 = true ->
  turn d tx (World h (Typed begin :: rest) out)
    = Begin (length h) (World (h ++ [default [] (h !! d)]) rest (out ++ ["> "]))
  /\ (forall c tx' h1 rest1 out1 unset1 key,
        reads Command.UNSET [key] unset1 = true ->
        exists h2 h3,
          turn c tx' (World h1 (Typed set2 :: rest1) out1)
            = Continue (World h2 rest1 (out1 ++ ["> "]))
          /\ turn c tx' (World h1 (Typed unset1 :: rest1) out1)
            = Continue (World h3 rest1 (out1 ++ ["> "]))
          /\ forall a, a <> c -> h2 !! a = h1 !! a /\ h3 !! a = h1 !! a)
  /\ (forall d1 h1 rest1 out1,
        operate_loop d1 true (World h1 (Typed rollback :: rest1) out1)
        = (Raise TransactionRollbackException,
           World h1 rest1 (out1 ++ ["> "])))
  /\ (forall rest1 w2,
        operate_loop (length h) true
          (World (h ++ [default [] (h !! d)]) rest1 (out ++ ["> "]))
          = (Raise TransactionRollbackException, w2) ->
        operate_loop d tx (World h (Typed begin :: rest1) out)
          = operate_loop d tx w2
        /\ forall a, a < length h -> heap w2 !! a = h !! a)
  /\ operate_loop d tx
       (World h (Typed set1 :: Typed begin :: Typed set2 :: Typed rollback
                 :: Typed get1 :: rest) out)
     = operate_loop d tx
         (World (<[d := setitem k v1 (default [] (h !! d))]> h
                 ++ [setitem k v2 (setitem k v1 (default [] (h !! d)))])
                rest (prompted 5 out ++ [String.append v1 newline]))
  /\ (<[d := setitem k v1 (default [] (h !! d))]> h
      ++ [setitem k v2 (setitem k v1 (default [] (h !! d)))]) !! d
     = Some (setitem k v1 (default [] (h !! d)))
  /\ operate_loop d false
       (World h (Typed begin :: Typed begin :: Typed rollback
                 :: Typed rollback :: rest) out)
     = operate_loop d false
         (World ((h ++ [default [] (h !! d)]) ++ [default [] (h !! d)])
                rest (prompted 4 out))
  /\ operate_loop d false
       (World h (Typed begin :: Typed rollback :: Typed rollback :: rest) out)
     = operate_loop d false
         (World (h ++ [default [] (h !! d)]) rest
                (prompted 3 out
                 ++ [String.append transaction_message newline])).
Proof.
  intros Hd Hs1 Hb Hs2 Hr Hg.
  assert (Hlook : forall x y, (<[d := x]> h ++ [y]) !! d = Some x).
  { intros x y. rewrite lookup_app_l by (rewrite length_insert; assumption).
    apply list_lookup_insert_eq. assumption. }
  split; [|split; [|split; [|split; [|split; [|split; [|split]]]]]].
  - apply turn_BEGIN; assumption.
  - intros c tx' h1 rest1 out1 unset1 key Hu. do 2 eexists.
    split; [apply turn_SET; eassumption|].
    split; [apply turn_UNSET; eassumption|].
    intros a Ha. split; apply list_lookup_insert_ne; congruence.
  - intros d1 h1 rest1 out1. apply loop_Leave, turn_ROLLBACK_inside.
    assumption.
  - intros rest1 w2 Hrun. split.
    + rewrite (loop_Begin d tx _ _ _ (turn_BEGIN d tx h begin rest1 out Hb)).
      rewrite Hrun. reflexivity.
    + intros a Ha.
      exact (transaction_frame d tx _ _ _ _ _
               (turn_BEGIN d tx h begin rest1 out Hb) Hrun a Ha).
  - etransitivity; [apply (reaches_loop any_line)|reflexivity].
    by_turn turn_SET.
    eapply reaches_trans.
    + eapply rollback_unwinds; [exact Hb | exact Hr |].
      rewrite list_lookup_insert_eq by assumption.
      cbn [default from_option id].
      by_turn turn_SET. apply reaches_here.
    + by_turn turn_GET. rewrite Hlook. cbn [default from_option id].
      rewrite get_setitem. apply reaches_here.
  - apply Hlook.
  - etransitivity; [apply (reaches_loop any_line)|reflexivity].
    eapply rollback_unwinds; [exact Hb | exact Hr |].
    eapply rollback_unwinds; [exact Hb | exact Hr |]. tidy_heap.
    apply reaches_here.
  - etransitivity; [apply (reaches_loop any_line)|reflexivity].
    eapply reaches_trans.
    + eapply rollback_unwinds; [exact Hb | exact Hr | apply reaches_here].
    + by_turn turn_ROLLBACK_outside. apply reaches_here.
Qed.

(** ** Validation *)

Lemma command_length_table :
  operation_command_length
  = [("SET", 3); ("GET", 2); ("UNSET", 2); ("COUNTS", 2); ("FIND", 2);
     ("END", 1); ("BEGIN", 1); ("ROLLBACK", 1); ("COMMIT", 1)].
Proof. reflexivity. Qed.

Lemma getitem_In {V} name (n : V) (table : dict V) :
  getitem name table = Some n -> In (name, n) table.
Proof.
  induction table as [|[k v] table IH]; cbn; [discriminate|].
  destruct (k =? name) eqn:E.
  - apply String.eqb_eq in E. intros [= ->]. left. congruence.
  - auto.
Qed.



Lemma validate_operation_Return operation :
  validate_operation operation = Return tt <->
  exists c rest n, operation = c :: rest
                   /\ getitem (upper c) operation_command_length = Some n
                   /\ length operation = n.
Proof.
  unfold validate_operation, contains, get. split.
  - destruct operation as [|c rest]; [discriminate|].
    destruct (getitem (upper c) operation_command_length) as [n|] eqn:Hget;
      [|discriminate].
    destruct (Nat.eqb n (length (c :: rest))) eqn:E; [|discriminate].
    apply Nat.eqb_eq in E. intros _. exists c, rest, n. auto.
  - intros (c & rest & n & -> & Hget & Hlen). rewrite Hget.
    rewrite <- Hlen, Nat.eqb_refl. reflexivity.
Qed.

Lemma validate_operation_cases operation :
  validate_operation operation = Return tt
  \/ validate_operation operation = Raise CommandValidationException.
Proof.
  unfold validate_operation. destruct operation; [auto|].
  destruct (contains _ _); [|auto]. destruct (Nat.eqb _ _); auto.
Qed.

(** What a turn that goes on to the next one has done to the heap. *)
Lemma turn_Continue_heap d tx h raw rest out w1 :
  turn d tx (World h (Typed raw :: rest) out) = Continue w1 ->
  heap w1 = h
  \/ (exists c key value,
        tokens raw = [c; key; value] /\ upper c = Command.SET
        /\ heap w1 = <[d := setitem key value (default [] (h !! d))]> h)
  \/ (exists c key,
        tokens raw = [c; key] /\ upper c = Command.UNSET
        /\ heap w1 = <[d := pop key (default [] (h !! d))]> h).
Proof.
  unfold turn, input, write; cbn [stdin heap stdout].
  destruct (validate_operation_cases (tokens raw)) as [Hv | Hv]; rewrite Hv.
  2:{ intros [= <-]. left. reflexivity. }
  apply validate_operation_Return in Hv as (c & args & n & Htok & Hget & Hlen).
  rewrite Htok in *. cbn [nth].
  destruct (upper c =? Command.SET) eqn:ESET.
  { apply String.eqb_eq in ESET. rewrite ESET in Hget.
    injection Hget as <-. destruct args as [|key [|value [|? ?]]]; try discriminate.
    intros [= <-]. right. left. exists c, key, value. auto. }
  destruct (upper c =? Command.GET); [intros [= <-]; left; reflexivity|].
  destruct (upper c =? Command.UNSET) eqn:EUNSET.
  { apply String.eqb_eq in EUNSET. rewrite EUNSET in Hget.
    injection Hget as <-. destruct args as [|key [|? ?]]; try discriminate.
    intros [= <-]. right. right. exists c, key. auto. }
  destruct (upper c =? Command.COUNTS); [intros [= <-]; left; reflexivity|].
  destruct (upper c =? Command.FIND); [intros [= <-]; left; reflexivity|].
  destruct (upper c =? Command.END); [discriminate|].
  destruct (upper c =? Command.BEGIN); [discriminate|].
  destruct tx; cbn [negb];
    repeat match goal with
           | |- context [if ?b then _ else _] => destruct b
           end;
    try discriminate; intros [= <-]; left; reflexivity.
Qed.

(** ** A value stays until it is set again or unset *)

Lemma keeps_SET k raw c key value :
  tokens raw = [c; key; value] -> upper c = Command.SET ->
  keeps k raw = true -> key <> k.
Proof.
  unfold keeps, touches. intros -> ->. cbn. intros H ->.
  rewrite String.eqb_refl in H. discriminate.
Qed.

Lemma keeps_UNSET k raw c key :
  tokens raw = [c; key] -> upper c = Command.UNSET ->
  keeps k raw = true -> key <> k.
Proof.
  unfold keeps, touches. intros -> ->. cbn. intros H ->.
  rewrite String.eqb_refl in H. discriminate.
Qed.

(** Through turns and whole transactions that read no [SET k] and no
    [UNSET k], the database has at [k] what it had. *)
Lemma reaches_keeps k tx d w d' w' :
  reaches (keeps k) tx d w d' w' ->
  d < length (heap w) ->
  d' < length (heap w')
  /\ getitem k (default [] (heap w' !! d'))
     = getitem k (default [] (heap w !! d)).
Proof.
  induction 1 as [tx d w
                 | tx d w raw w1 d' w' Hhead Hkeep Ht _ IH
                 | tx d w c w1 d2 w2 w3 d' w' Ht Hin IHin Hl _ IH
                 | tx d w c w1 d2 w2 w3 d' w' Ht Hin IHin Hl _ IH];
    intros Hd.
  - auto.
  - pose proof (turn_effect d tx w) as He. rewrite Ht in He.
    destruct He as (_ & Hlen & _).
    destruct IH as (Hd' & ->); [lia|]. split; [assumption|].
    destruct w as [h inp out]. cbn [stdin heap] in *.
    destruct inp as [|ev rest]; [discriminate|]. injection Hhead as ->.
    destruct (turn_Continue_heap _ _ _ _ _ _ _ Ht)
      as [-> | [(c & key & value & Htok & Hup & ->)
               | (c & key & Htok & Hup & ->)]].
    + reflexivity.
    + rewrite list_lookup_insert_eq by assumption. cbn [default from_option id].
      apply getitem_setitem_other. eapply keeps_SET; eassumption.
    + rewrite list_lookup_insert_eq by assumption. cbn [default from_option id].
      apply getitem_pop_other. eapply keeps_UNSET; eassumption.
  - pose proof (turn_effect d tx w) as He. rewrite Ht in He.
    destruct He as (_ & -> & Hheap).
    destruct IHin as (Hd2 & Hk2);
      [rewrite Hheap, length_app; cbn [length]; lia|].
    pose proof (turn_effect d2 true w2) as He. rewrite Hl in He.
    destruct He as (_ & Hheap3 & _).
    destruct IH as (Hd' & ->); [rewrite Hheap3; assumption|].
    split; [assumption|]. rewrite Hheap3, Hk2, Hheap, lookup_snoc.
    reflexivity.
  - assert (Hrun : operate_loop c true w1
                   = (Raise TransactionRollbackException, w3)).
    { rewrite (reaches_loop _ _ _ _ _ _ Hin). apply loop_Leave. assumption. }
    pose proof (transaction_frame _ _ _ _ _ _ _ Ht Hrun d Hd) as Hsame.
    pose proof (turn_effect d tx w) as He. rewrite Ht in He.
    destruct He as (_ & -> & Hheap).
    destruct (operate_loop_frame _ _ _ _ _ Hrun) as (Hlen & _);
      [rewrite Hheap, length_app; cbn [length]; lia|].
    rewrite Hheap, length_app in Hlen. cbn [length] in Hlen.
    destruct IH as (Hd' & ->); [lia|].
    split; [assumption|]. rewrite Hsame. reflexivity.
Qed.

Lemma undisturbed_loop k tx d w d' w' :
  undisturbed k tx d w d' w' ->
  operate_loop d tx w = operate_loop d' tx w'.
Proof.
  induction 1 as [tx d w
                 | tx d w raw w1 d' w' _ _ Ht _ IH
                 | tx d w c w1 d2 w2 w3 d' w' Ht _ IHin Hl _ IH
                 | tx d w c w1 w3 d' w' Ht Hrun _ IH].
  - reflexivity.
  - rewrite (loop_Continue _ _ _ _ Ht). assumption.
  - rewrite (loop_Begin _ _ _ _ _ Ht), IHin, (loop_Leave _ _ _ _ _ Hl).
    assumption.
  - rewrite (loop_Begin _ _ _ _ _ Ht), Hrun. assumption.
Qed.

(** Through an undisturbed run the database has at [k] what it had. *)
Lemma undisturbed_keeps k tx d w d' w' :
  undisturbed k tx d w d' w' ->
  d < length (heap w) ->
  d' < length (heap w')
  /\ getitem k (default [] (heap w' !! d'))
     = getitem k (default [] (heap w !! d)).
Proof.
  induction 1 as [tx d w
                 | tx d w raw w1 d' w' Hhead Hkeep Ht _ IH
                 | tx d w c w1 d2 w2 w3 d' w' Ht Hin IHin Hl _ IH
                 | tx d w c w1 w3 d' w' Ht Hrun _ IH];
    intros Hd.
  - auto.
  - pose proof (turn_effect d tx w) as He. rewrite Ht in He.
    destruct He as (_ & Hlen & _).
    destruct IH as (Hd' & ->); [lia|]. split; [assumption|].
    destruct w as [h inp out]. cbn [stdin heap] in *.
    destruct inp as [|ev rest]; [discriminate|]. injection Hhead as ->.
    destruct (turn_Continue_heap _ _ _ _ _ _ _ Ht)
      as [-> | [(c & key & value & Htok & Hup & ->)
               | (c & key & Htok & Hup & ->)]].
    + reflexivity.
    + rewrite list_lookup_insert_eq by assumption. cbn [default from_option id].
      apply getitem_setitem_other. eapply keeps_SET; eassumption.
    + rewrite list_lookup_insert_eq by assumption. cbn [default from_option id].
      apply getitem_pop_other. eapply keeps_UNSET; eassumption.
  - pose proof (turn_effect d tx w) as He. rewrite Ht in He.
    destruct He as (_ & -> & Hheap).
    destruct IHin as (Hd2 & Hk2);
      [rewrite Hheap, length_app; cbn [length]; lia|].
    pose proof (turn_effect d2 true w2) as He. rewrite Hl in He.
    destruct He as (_ & Hheap3 & _).
    destruct IH as (Hd' & ->); [rewrite Hheap3; assumption|].
    split; [assumption|]. rewrite Hheap3, Hk2, Hheap, lookup_snoc.
    reflexivity.
  - pose proof (transaction_frame _ _ _ _ _ _ _ Ht Hrun d Hd) as Hsame.
    pose proof (turn_effect d tx w) as He. rewrite Ht in He.
    destruct He as (_ & -> & Hheap).
    destruct (operate_loop_frame _ _ _ _ _ Hrun) as (Hlen & _);
      [rewrite Hheap, length_app; cbn [length]; lia|].
    rewrite Hheap, length_app in Hlen. cbn [length] in Hlen.
    destruct IH as (Hd' & ->); [lia|].
    split; [assumption|]. rewrite Hsame. reflexivity.
Qed.

(** C3, as the program has it.  After [SET k v] the program goes on to
    print [v] at [GET k], whatever it reads in between in the turns of
    the call and in nested transactions, as long as no [SET] and no
    [UNSET] of the key [k] is read by the call itself or by a transaction
    that is committed into it; what a transaction that is rolled back
    reads does not matter. *)
Theorem set_then_get
    d tx h out rest k v set1 d' h' get1 rest' out' :
  d < length h ->
  reads Command.SET [k; v] set1 = true ->
  reads Command.GET [k] get1 = true ->
  undisturbed k tx d
    (World (<[d := setitem k v (default [] (h !! d))]> h) rest (out ++ ["> "]))
    d' (World h' (Typed get1 :: rest') out') ->
  operate_loop d tx (World h (Typed set1 :: rest) out)
    = operate_loop d' tx
        (World h' rest' ((out' ++ ["> "]) ++ [String.append v newline]))
  /\ getitem k (default [] (h' !! d')) = Some v.
Proof.
  intros Hd Hs Hg Hrun.
  destruct (undisturbed_keeps _ _ _ _ _ _ Hrun) as (Hd' & Hk);
    [cbn [heap]; rewrite length_insert; assumption|].
  cbn [heap] in Hk. rewrite list_lookup_insert_eq in Hk by assumption.
  cbn [default from_option id] in Hk. rewrite getitem_setitem in Hk.
  split; [|assumption].
  rewrite (loop_Continue _ _ _ _ (turn_SET d tx h set1 rest out k v Hs)).
  rewrite (undisturbed_loop _ _ _ _ _ _ Hrun).
  rewrite (loop_Continue _ _ _ _
             (turn_GET d' tx h' get1 rest' out' k Hg)).
  unfold get. rewrite Hk. reflexivity.
Qed.

(** ** No transaction *)




(** ** Reading *)

(** C10. [GET], [COUNTS] and [FIND] write their answer and leave the heap
    as it is; the loop of the same call goes on with the same database. *)
Theorem read_commands_change_nothing d tx h raw rest out arg :
  reads Command.GET [arg] raw || reads Command.COUNTS [arg] raw
    || reads Command.FIND [arg] raw = true ->
  exists text,
    turn d tx (World h (Typed raw :: rest) out)
      = Continue (World h rest ((out ++ ["> "]) ++ [text]))
    /\ operate_loop d tx (World h (Typed raw :: rest) out)
       = operate_loop d tx (World h rest ((out ++ ["> "]) ++ [text])).
Proof.
  intros H. apply orb_prop in H as [H | H]; [apply orb_prop in H as [H | H]|].
  - eexists. split; [apply turn_GET; eassumption|].
    apply loop_Continue, turn_GET. assumption.
  - eexists. split; [apply turn_COUNTS; eassumption|].
    apply loop_Continue, turn_COUNTS. assumption.
  - eexists. split; [apply turn_FIND; eassumption|].
    apply loop_Continue, turn_FIND. assumption.
Qed.

(** C9. [GET] of a key whose value is the string [NULL] and [GET] of a key
    that is absent write the same text. *)
Theorem get_NULL_is_absent
    d tx h raw k d' h' raw' k' rest out :
  reads Command.GET [k] raw = true ->
  reads Command.GET [k'] raw' = true ->
  getitem k (default [] (h !! d)) = Some "NULL" ->
  getitem k' (default [] (h' !! d')) = None ->
  turn d tx (World h (Typed raw :: rest) out)
    = Continue (World h rest
        ((out ++ ["> "]) ++ [String.append "NULL" newline]))
  /\ turn d' tx (World h' (Typed raw' :: rest) out)
     = Continue (World h' rest
        ((out ++ ["> "]) ++ [String.append "NULL" newline])).
Proof.
  intros Hg Hg' Hk Hk'. split.
  - rewrite (turn_GET _ _ _ _ _ _ _ Hg). unfold get. rewrite Hk. reflexivity.
  - rewrite (turn_GET _ _ _ _ _ _ _ Hg'). unfold get. rewrite Hk'. reflexivity.
Qed.

(** ** Leaving the program *)

Lemma turn_ends_session d tx w :
  ends_session (stdin w) = true ->
  turn d tx w
  = Leave (Raise ExitException)
          (World (heap w) (tl (stdin w)) (stdout w ++ ["> "])).
Proof.
  destruct w as [h inp out]. cbn [stdin heap stdout].
  destruct inp as [|[raw| |] rest]; cbn [ends_session tl]; intros H.
  - reflexivity.
  - apply turn_END. assumption.
  - reflexivity.
  - reflexivity.
Qed.

(** C8. At any depth of open transactions, when the next line is [END],
    or [input] raises [EOFError] or [KeyboardInterrupt], the call that
    reads it raises [ExitException] and so does every call around it:
    the outer call ends by [ExitException] in the very world the inner
    one left, with the heap as it was, the rest of the input unread and
    nothing written but the prompt; [main] ends there. *)
Theorem terminate_propagates tx d w n tx' d' w' :
  inside tx d w n tx' d' w' ->
  ends_session (stdin w') = true ->
  turn d' tx' w'
    = Leave (Raise ExitException)
            (World (heap w') (tl (stdin w')) (stdout w' ++ ["> "]))
  /\ operate_loop d tx w
     = (Raise ExitException,
        World (heap w') (tl (stdin w')) (stdout w' ++ ["> "]))
  /\ (forall w0, tx = false -> alloc [] w0 = (d, w) ->
        main w0
        = (Return tt, World (heap w') (tl (stdin w')) (stdout w' ++ ["> "]))).
Proof.
  intros Hin Hend.
  pose proof (turn_ends_session d' tx' w' Hend) as Ht.
  assert (Hloop : operate_loop d tx w
     = (Raise ExitException,
        World (heap w') (tl (stdin w')) (stdout w' ++ ["> "]))).
  { clear Hend. induction Hin as [tx d w d' w' Hr
                     | tx d w d1 w1 c w2 n tx' d' w' Hr Hb _ IH].
    - rewrite (reaches_loop _ _ _ _ _ _ Hr). apply loop_Leave. assumption.
    - rewrite (reaches_loop _ _ _ _ _ _ Hr), (loop_Begin _ _ _ _ _ Hb).
      rewrite (IH Ht). reflexivity. }
  split; [assumption|]. split; [assumption|].
  intros w0 -> Halloc. unfold main, operate. rewrite Halloc, Hloop.
  reflexivity.
Qed.

(** ** The keys of every dictionary stay distinct *)

Lemma getitem_None_keys {V} k (db : dict V) :
  getitem k db = None -> ~ In k (keys db).
Proof.
  unfold keys. induction db as [|[k0 v0] db IH]; cbn; [auto|].
  destruct (k0 =? k) eqn:E; [discriminate|].
  intros Hnone [Heq | Hin]; [|exact (IH Hnone Hin)].
  subst k0. rewrite String.eqb_refl in E. discriminate.
Qed.

Lemma keys_setitem_cases {V} k (v : V) (db : dict V) :
  keys (setitem k v db) = keys db
  \/ (keys (setitem k v db) = keys db ++ [k] /\ ~ In k (keys db)).
Proof.
  unfold keys. induction db as [|[k0 v0] db IH]; cbn.
  - right. auto.
  - destruct (k0 =? k) eqn:E; cbn; [left; reflexivity|].
    destruct IH as [-> | (-> & Hnotin)]; [left; reflexivity|].
    right. split; [reflexivity|]. intros [Heq | Hin]; [|contradiction].
    subst k0. rewrite String.eqb_refl in E. discriminate.
Qed.

Lemma setitem_well_formed {V} k (v : V) (db : dict V) :
  well_formed db -> well_formed (setitem k v db).
Proof.
  unfold well_formed. intros Hnd.
  destruct (keys_setitem_cases k v db) as [-> | (-> & Hnotin)]; [assumption|].
  apply List.NoDup_app.
  - assumption.
  - constructor; [intros [] | constructor].
  - intros x Hx [<- | []]. contradiction.
Qed.

Lemma keys_pop_In {V} k x (db : dict V) :
  In x (keys (pop k db)) -> In x (keys db).
Proof.
  unfold keys. induction db as [|[k0 v0] db IH]; cbn; [auto|].
  destruct (k0 =? k); cbn; [auto|]. intros [Hx | Hx]; auto.
Qed.

Lemma pop_well_formed {V} k (db : dict V) :
  well_formed db -> well_formed (pop k db).
Proof.
  unfold well_formed, keys. induction db as [|[k0 v0] db IH]; cbn; [auto|].
  intros Hnd. inversion Hnd as [|? ? Hnotin Hnd']; subst.
  destruct (k0 =? k); [assumption|]. cbn. constructor; [|auto].
  intros Hin. apply Hnotin. eapply keys_pop_In. exact Hin.
Qed.

Lemma load_well_formed (h : list (dict string)) d :
  Forall well_formed h -> well_formed (default [] (h !! d)).
Proof.
  intros Hall. destruct (h !! d) as [db|] eqn:E; cbn.
  - rewrite List.Forall_forall in Hall. apply Hall.
    apply list_elem_of_In. eapply list_elem_of_lookup_2. exact E.
  - constructor.
Qed.

Lemma turn_well_formed d tx w :
  Forall well_formed (heap w) ->
  match turn d tx w with
  | Continue w1 => Forall well_formed (heap w1)
  | Begin _ w1 => Forall well_formed (heap w1)
  | Leave _ w1 => Forall well_formed (heap w1)
  end.
Proof.
  intros Hall. pose proof (turn_effect d tx w) as He.
  destruct (turn d tx w) as [w1|c w1|res w1] eqn:Ht.
  - destruct He as ([raw Hin] & _). destruct w as [h inp out].
    cbn [stdin heap] in *. subst inp.
    destruct (turn_Continue_heap _ _ _ _ _ _ _ Ht)
      as [-> | [(c & key & value & _ & _ & ->) | (c & key & _ & _ & ->)]].
    + assumption.
    + apply Forall_insert; [assumption|].
      apply setitem_well_formed, load_well_formed. assumption.
    + apply Forall_insert; [assumption|].
      apply pop_well_formed, load_well_formed. assumption.
  - destruct He as (_ & _ & ->). apply Forall_app. split; [assumption|].
    constructor; [|constructor]. apply load_well_formed. assumption.
  - destruct He as (_ & -> & _). assumption.
Qed.

(** At every head of the loop that a run comes to, the dictionaries of
    the heap have distinct keys if they had at the start, as they have in
    the empty heap of [main]. *)
Lemma reaches_well_formed allowed tx d w d' w' :
  reaches allowed tx d w d' w' ->
  Forall well_formed (heap w) -> Forall well_formed (heap w').
Proof.
  induction 1 as [tx d w
                 | tx d w raw w1 d' w' _ _ Ht _ IH
                 | tx d w c w1 d2 w2 w3 d' w' Ht _ IHin Hl _ IH
                 | tx d w c w1 d2 w2 w3 d' w' Ht _ IHin Hl _ IH];
    intros Hall.
  - assumption.
  - apply IH. pose proof (turn_well_formed d tx w Hall) as H.
    rewrite Ht in H. assumption.
  - apply IH. pose proof (turn_well_formed d tx w Hall) as H.
    rewrite Ht in H. pose proof (turn_well_formed d2 true w2 (IHin H)) as H2.
    rewrite Hl in H2. assumption.
  - apply IH. pose proof (turn_well_formed d tx w Hall) as H.
    rewrite Ht in H. pose proof (turn_well_formed d2 true w2 (IHin H)) as H2.
    rewrite Hl in H2. assumption.
Qed.

(** ** Finding keys *)

Lemma find_value_filter v (db : dict string) :
  find_value v db = map fst (List.filter (fun kv => snd kv =? v) db).
Proof.
  unfold find_value, items.
  assert (H : forall acc,
    fold_left (fun commands kv => if snd kv =? v then commands ++ [fst kv]
                                  else commands) db acc
    = acc ++ map fst (List.filter (fun kv => snd kv =? v) db)).
  { induction db as [|[k0 v0] db IH]; intros acc; cbn [fold_left List.filter].
    - rewrite app_nil_r. reflexivity.
    - rewrite IH. cbn [snd fst]. destruct (v0 =? v); [|reflexivity].
      cbn [map fst]. rewrite <- app_assoc. reflexivity. }
  apply (H []).
Qed.

Lemma getitem_keys {V} k (v : V) (db : dict V) :
  getitem k db = Some v -> In k (keys db).
Proof.
  intros H. apply getitem_In in H. unfold keys.
  change k with (fst (k, v)). apply in_map. assumption.
Qed.

Lemma find_value_keys v (db : dict string) :
  well_formed db ->
  find_value v db
  = List.filter (fun k => match getitem k db with
                          | Some v' => v' =? v
                          | None => false
                          end) (keys db).
Proof.
  rewrite find_value_filter. unfold well_formed, keys.
  induction db as [|[k0 v0] db IH]; intros Hnd; [reflexivity|].
  inversion Hnd as [|? ? Hnotin Hnd']; subst.
  cbn [map fst snd List.filter getitem]. rewrite String.eqb_refl.
  assert (Htail :
    List.filter (fun k => match (if k0 =? k then Some v0 else getitem k db) with
                          | Some v' => v' =? v
                          | None => false
                          end) (map fst db)
    = List.filter (fun k => match getitem k db with
                            | Some v' => v' =? v
                            | None => false
                            end) (map fst db)).
  { apply List.filter_ext_in. intros k Hk.
    destruct (k0 =? k) eqn:E; [|reflexivity].
    apply String.eqb_eq in E. subst k. contradiction. }
  rewrite Htail, <- (IH Hnd'). destruct (v0 =? v); reflexivity.
Qed.

Lemma keys_setitem {V} k (v : V) (db : dict V) :
  keys (setitem k v db) = if contains k db then keys db else keys db ++ [k].
Proof.
  unfold contains, keys. induction db as [|[k0 v0] db IH]; cbn; [reflexivity|].
  destruct (k0 =? k) eqn:E; cbn; [reflexivity|].
  rewrite IH. destruct (getitem k db); reflexivity.
Qed.

(** C7. [FIND v] prints, joined by [", "], the keys of the database that
    hold [v], each once, in the order of the keys of the dictionary,
    which is the order of insertion: a key that is set again keeps its
    place and a new key goes to the end.  When no key holds [v] the text
    is empty. *)
Theorem find_prints_matching_keys d tx h raw rest out v :
  reads Command.FIND [v] raw = true ->
  well_formed (default [] (h !! d)) ->
  turn d tx (World h (Typed raw :: rest) out)
    = Continue (World h rest
        ((out ++ ["> "])
         ++ [String.append (join ", " (find_value v (default [] (h !! d))))
                           newline]))
  /\ find_value v (default [] (h !! d))
     = List.filter (fun k => match getitem k (default [] (h !! d)) with
                             | Some v' => v' =? v
                             | None => false
                             end) (keys (default [] (h !! d)))
  /\ (forall k, In k (find_value v (default [] (h !! d)))
                <-> getitem k (default [] (h !! d)) = Some v)
  /\ ((forall k, getitem k (default [] (h !! d)) <> Some v) ->
      join ", " (find_value v (default [] (h !! d))) = "")
  /\ (forall k' v',
        keys (setitem k' v' (default [] (h !! d)))
        = if contains k' (default [] (h !! d))
          then keys (default [] (h !! d))
          else keys (default [] (h !! d)) ++ [k']).
Proof.
  intros Hf Hwf. set (db := default [] (h !! d)) in *.
  assert (Hiff : forall k, In k (find_value v db) <-> getitem k db = Some v).
  { intros k. rewrite (find_value_keys v db Hwf), List.filter_In. split.
    - intros (_ & Htest). destruct (getitem k db) as [v'|]; [|discriminate].
      apply String.eqb_eq in Htest. congruence.
    - intros Hk. split; [eapply getitem_keys; eassumption|].
      rewrite Hk. apply String.eqb_refl. }
  split; [apply turn_FIND; assumption|].
  split; [apply find_value_keys; assumption|].
  split; [assumption|]. split; [|intros; apply keys_setitem].
  intros Hnone. destruct (find_value v db) as [|k l] eqn:E; [reflexivity|].
  exfalso. apply (Hnone k). apply Hiff. left. reflexivity.
Qed.

(** ** Tokens *)

Lemma split_not_nil sep s : split sep s <> [].
Proof.
  destruct s as [|c s]; cbn; [discriminate|].
  destruct (Ascii.eqb c sep); [discriminate|].
  destruct (split sep s); discriminate.
Qed.

Lemma split_word t s :
  space_free t = true ->
  split " "%char (String.append t s)
  = match split " "%char s with
    | field :: fields => String.append t field :: fields
    | [] => [t]
    end.
Proof.
  induction t as [|c t IH]; cbn [space_free String.append]; intros H.
  - destruct (split " "%char s) eqn:E; [|reflexivity].
    exfalso. exact (split_not_nil _ _ E).
  - apply andb_prop in H as [Hc Ht]. apply negb_true_iff in Hc.
    cbn [split]. rewrite Hc, (IH Ht).
    destruct (split " "%char s) eqn:E; [|reflexivity].
    exfalso. exact (split_not_nil _ _ E).
Qed.

Lemma append_empty t : String.append t "" = t.
Proof. induction t as [|c t IH]; cbn; [reflexivity | rewrite IH; reflexivity]. Qed.

Lemma tokens_empty : tokens "" = [].
Proof. reflexivity. Qed.

Lemma tokens_space s : tokens (String " "%char s) = tokens s.
Proof. reflexivity. Qed.

Lemma tokens_word t s :
  t <> "" -> space_free t = true ->
  s = "" \/ (exists s', s = String " "%char s') ->
  tokens (String.append t s) = t :: tokens s.
Proof.
  intros Hne Hfree Hs. unfold tokens. rewrite (split_word t s Hfree).
  assert (Hkeep : negb (t =? "") = true).
  { apply negb_true_iff. destruct (t =? "") eqn:E; [|reflexivity].
    apply String.eqb_eq in E. contradiction. }
  destruct Hs as [-> | [s' ->]].
  - cbn [split List.filter]. rewrite append_empty, Hkeep. reflexivity.
  - cbn [split]. rewrite Ascii.eqb_refl. cbn [List.filter].
    rewrite append_empty, Hkeep. reflexivity.
Qed.

Lemma split_space_free s :
  Forall (fun field => space_free field = true) (split " "%char s).
Proof.
  induction s as [|c s IH]; cbn [split].
  - constructor; [reflexivity | constructor].
  - destruct (Ascii.eqb c " "%char) eqn:E.
    + constructor; [reflexivity | assumption].
    + destruct (split " "%char s) as [|field fields].
      * constructor; [cbn; rewrite E; reflexivity | constructor].
      * inversion IH as [|? ? Hf Hfs]; subst.
        constructor; [cbn; rewrite E, Hf; reflexivity | assumption].
Qed.

Lemma tokens_words raw t :
  In t (tokens raw) -> t <> "" /\ space_free t = true.
Proof.
  unfold tokens. rewrite List.filter_In. intros (Hin & Hne). split.
  - intros ->. discriminate.
  - pose proof (split_space_free raw) as Hall.
    rewrite List.Forall_forall in Hall. apply Hall. assumption.
Qed.

(** C6, as the program has it.  A line is cut at the space character and
    at no other: spaces before a word are skipped, a word is a longest
    run of characters other than the space, be they tabs, and is followed
    by a space or by the end of the line; the line without a word has no
    token and fails the validation. *)
Theorem tokens_split_on_spaces t s :
  t <> "" ->
  space_free t = true ->
  s = "" \/ (exists s', s = String " "%char s') ->
  tokens (String.append t s) = t :: tokens s
  /\ tokens (String " "%char s) = tokens s
  /\ tokens "" = []
  /\ validate_operation (tokens "") = Raise CommandValidationException
  /\ (forall raw word, In word (tokens raw) ->
                       word <> "" /\ space_free word = true).
Proof.
  intros Hne Hfree Hs.
  split; [apply tokens_word; assumption|].
  split; [apply tokens_space|]. split; [apply tokens_empty|].
  split; [reflexivity|]. apply tokens_words.
Qed.


(** * Further properties of the program *)

(** ** Unsetting *)

Lemma getitem_absent {V} k (db : dict V) :
  ~ In k (keys db) -> getitem k db = None.
Proof.
  unfold keys. induction db as [|[k0 v0] db IH]; cbn; [reflexivity|].
  intros Hnotin. destruct (k0 =? k) eqn:E.
  - apply String.eqb_eq in E. exfalso. apply Hnotin. left. assumption.
  - apply IH. intros Hin. apply Hnotin. right. assumption.
Qed.

Lemma getitem_pop {V} k (db : dict V) :
  well_formed db -> getitem k (pop k db) = None.
Proof.
  unfold well_formed, keys. induction db as [|[k0 v0] db IH]; cbn;
    [reflexivity|].
  intros Hnd. inversion Hnd as [|? ? Hnotin Hnd']; subst.
  destruct (k0 =? k) eqn:E.
  - apply String.eqb_eq in E. subst k0. apply getitem_absent. assumption.
  - cbn. rewrite E. auto.
Qed.

Lemma pop_absent {V} k (db : dict V) : getitem k db = None -> pop k db = db.
Proof.
  induction db as [|[k0 v0] db IH]; cbn; [reflexivity|].
  destruct (k0 =? k); [discriminate|]. intros H. rewrite (IH H). reflexivity.
Qed.

Lemma insert_load {A} (h : list (list A)) d : <[d := default [] (h !! d)]> h = h.
Proof.
  destruct (h !! d) as [x|] eqn:E; cbn.
  - apply list_insert_id. assumption.
  - apply list_insert_ge. apply lookup_ge_None. assumption.
Qed.

(** X1. After [UNSET k], through any further turns of the call and any whole
    transactions that read no [SET] and no [UNSET] of the key [k],
    [GET k] prints [NULL]. *)
Theorem unset_then_get
    d tx h out rest k unset1 d' h' get1 rest' out' :
  d < length h ->
  well_formed (default [] (h !! d)) ->
  reads Command.UNSET [k] unset1 = true ->
  reads Command.GET [k] get1 = true ->
  reaches (keeps k) tx d
    (World (<[d := pop k (default [] (h !! d))]> h) rest (out ++ ["> "]))
    d' (World h' (Typed get1 :: rest') out') ->
  reaches any_line tx d (World h (Typed unset1 :: rest) out)
    d' (World h' rest' ((out' ++ ["> "]) ++ [String.append "NULL" newline]))
  /\ getitem k (default [] (h' !! d')) = None.
Proof.
  intros Hd Hwf Hu Hg Hrun.
  destruct (reaches_keeps _ _ _ _ _ _ Hrun) as (Hd' & Hk);
    [cbn [heap]; rewrite length_insert; assumption|].
  cbn [heap] in Hk. rewrite list_lookup_insert_eq in Hk by assumption.
  cbn [default from_option id] in Hk. rewrite getitem_pop in Hk by assumption.
  split; [|assumption].
  by_turn turn_UNSET. eapply reaches_trans; [eapply reaches_any; exact Hrun|].
  by_turn turn_GET. unfold get. rewrite Hk. apply reaches_here.
Qed.

(** X2. [UNSET] of a key that the database does not hold changes nothing:
    every object of the heap is as it was, nothing is printed, and the
    loop goes on. *)
Theorem unset_absent_changes_nothing d tx h raw rest out k :
  reads Command.UNSET [k] raw = true ->
  getitem k (default [] (h !! d)) = None ->
  turn d tx (World h (Typed raw :: rest) out)
  = Continue (World h rest (out ++ ["> "])).
Proof.
  intros Hu Hk. rewrite (turn_UNSET _ _ _ _ _ _ _ Hu).
  rewrite (pop_absent _ _ Hk), insert_load. reflexivity.
Qed.

(** ** Counting *)

Lemma count_value_filter v (db : dict string) :
  count_value v db = length (List.filter (fun kv => snd kv =? v) db).
Proof.
  unfold count_value, values.
  assert (H : forall n,
    fold_left (fun counter v' => if v' =? v then counter + 1 else counter)
              (map snd db) n
    = n + length (List.filter (fun kv => snd kv =? v) db)).
  { induction db as [|[k0 v0] db IH]; intros n;
      cbn [map fold_left List.filter snd].
    - cbn. lia.
    - rewrite IH. destruct (v0 =? v); cbn [length]; lia. }
  apply (H 0).
Qed.

(** X3. [COUNTS v] prints the number of the keys that [FIND v] lists, which
    is at most the number of the keys of the database. *)
Theorem counts_is_number_of_found d tx h raw rest out v :
  reads Command.COUNTS [v] raw = true ->
  turn d tx (World h (Typed raw :: rest) out)
    = Continue (World h rest
        ((out ++ ["> "])
         ++ [String.append
               (str_of_nat (length (find_value v (default [] (h !! d)))))
               newline]))
  /\ length (find_value v (default [] (h !! d)))
     <= length (keys (default [] (h !! d))).
Proof.
  intros Hc. split.
  - rewrite (turn_COUNTS _ _ _ _ _ _ _ Hc), count_value_filter.
    rewrite find_value_filter, length_map. reflexivity.
  - rewrite find_value_filter. unfold keys. rewrite !length_map.
    apply List.filter_length_le.
Qed.

(** ** The command in any case *)

(** X4. A line is treated by its first token in upper case and its other
    tokens as typed: two lines that differ in the case of the command, or
    in their spaces, have the same effect. *)
Theorem command_read_in_upper_case d tx h raw raw' rest out c c' args :
  tokens raw = c :: args ->
  tokens raw' = c' :: args ->
  upper c = upper c' ->
  turn d tx (World h (Typed raw :: rest) out)
  = turn d tx (World h (Typed raw' :: rest) out).
Proof.
  intros Htok Htok' Hup. unfold turn, input, write; cbn [stdin heap stdout].
  rewrite Htok, Htok'. unfold validate_operation. cbn [nth length].
  rewrite Hup. reflexivity.
Qed.

(** ** What a validated line looks like *)

(** X5. A list of tokens that passes the validation has a first token that,
    in upper case, is one of the nine commands, and as many other tokens
    as the command takes: the tokens that [operate] then reads at the
    indices 1 and 2 are there, and one of the cases of its [match] is
    taken. *)
Theorem validated_operation_shape operation :
  validate_operation operation = Return tt ->
  exists c,
    (upper c = Command.SET /\ exists key value, operation = [c; key; value])
    \/ (In (upper c) [Command.GET; Command.UNSET; Command.COUNTS; Command.FIND]
        /\ exists arg, operation = [c; arg])
    \/ (In (upper c) [Command.END; Command.BEGIN; Command.ROLLBACK;
                      Command.COMMIT]
        /\ operation = [c]).
Proof.
  intros Hv.
  apply validate_operation_Return in Hv as (c & args & n & -> & Hget & Hlen).
  exists c. apply getitem_In in Hget. rewrite command_length_table in Hget.
  cbn [In] in Hget. cbn [length] in Hlen.
  destruct Hget as [[= Hc <-] | [[= Hc <-] | [[= Hc <-] | [[= Hc <-]
    | [[= Hc <-] | [[= Hc <-] | [[= Hc <-] | [[= Hc <-] | [[= Hc <-] | []]]]]]]]]];
    rewrite <- Hc; cbn [In].
  - left. split; [reflexivity|].
    destruct args as [|key [|value [|? ?]]]; try discriminate. eauto.
  - right. left. split; [auto|].
    destruct args as [|arg [|? ?]]; try discriminate. eauto.
  - right. left. split; [auto|].
    destruct args as [|arg [|? ?]]; try discriminate. eauto.
  - right. left. split; [auto|].
    destruct args as [|arg [|? ?]]; try discriminate. eauto.
  - right. left. split; [auto 6|].
    destruct args as [|arg [|? ?]]; try discriminate. eauto.
  - right. right. split; [auto|].
    destruct args as [|? ?]; try discriminate. reflexivity.
  - right. right. split; [auto|].
    destruct args as [|? ?]; try discriminate. reflexivity.
  - right. right. split; [auto|].
    destruct args as [|? ?]; try discriminate. reflexivity.
  - right. right. split; [auto 6|].
    destruct args as [|? ?]; try discriminate. reflexivity.
Qed.

(** ** The whole program *)

Lemma turn_console d tx w :
  match turn d tx w with
  | Continue w1 | Begin _ w1 | Leave _ w1 =>
      (exists consumed, stdin w = consumed ++ stdin w1)
      /\ (exists written, stdout w1 = stdout w ++ "> " :: written)
  end.
Proof.
  destruct w as [h inp out]. unfold turn, input, write; cbn [stdin heap stdout].
  destruct inp as [|[raw| |] rest]; cbn [stdin heap stdout].
  - split; [exists []; reflexivity | exists []; reflexivity].
  - destruct (validate_operation (tokens raw)).
    2:{ cbn. split; [exists [Typed raw]; reflexivity|].
        eexists. rewrite <- app_assoc. reflexivity. }
    destruct tx; cbn [negb];
      repeat match goal with
             | |- context [if ?b then _ else _] => destruct b
             end;
      unfold store, print, write, copy, alloc, load;
      cbn [stdin heap stdout fst snd];
      (split; [exists [Typed raw]; reflexivity|]);
      first [ exists []; reflexivity
            | eexists; rewrite <- app_assoc; reflexivity ].
  - split; [exists [EOFError]; reflexivity | exists []; reflexivity].
  - split; [exists [KeyboardInterrupt]; reflexivity | exists []; reflexivity].
Qed.

Lemma operate_fuel_console fuel : forall d tx w r w',
  operate_fuel fuel d tx w = Some (r, w') ->
  (exists consumed, stdin w = consumed ++ stdin w')
  /\ (exists written, stdout w' = stdout w ++ "> " :: written).
Proof.
  induction fuel as [|fuel IH]; intros d tx w r w' H; [discriminate|].
  rewrite operate_fuel_S in H. pose proof (turn_console d tx w) as Hc.
  assert (Hseq : forall w1 w2,
    ((exists consumed, stdin w = consumed ++ stdin w1)
     /\ (exists written, stdout w1 = stdout w ++ "> " :: written)) ->
    ((exists consumed, stdin w1 = consumed ++ stdin w2)
     /\ (exists written, stdout w2 = stdout w1 ++ "> " :: written)) ->
    (exists consumed, stdin w = consumed ++ stdin w2)
    /\ (exists written, stdout w2 = stdout w ++ "> " :: written)).
  { intros w1 w2 ([c1 Hc1] & [o1 Ho1]) ([c2 Hc2] & [o2 Ho2]). split.
    - exists (c1 ++ c2). rewrite Hc1, Hc2, app_assoc. reflexivity.
    - exists (o1 ++ "> " :: o2). rewrite Ho2, Ho1, <- app_assoc. reflexivity. }
  destruct (turn d tx w) as [w1|c w1|res w1].
  - eapply Hseq; [exact Hc | eapply IH; exact H].
  - destruct (operate_fuel fuel c true w1) as [[[d2|e] w2]|] eqn:E;
      try discriminate.
    + eapply Hseq; [eapply Hseq; [exact Hc | eapply IH; exact E]
                   | eapply IH; exact H].
    + destruct e.
      * injection H as <- <-. eapply Hseq; [exact Hc | eapply IH; exact E].
      * injection H as <- <-. eapply Hseq; [exact Hc | eapply IH; exact E].
      * eapply Hseq; [eapply Hseq; [exact Hc | eapply IH; exact E]
                     | eapply IH; exact H].
  - injection H as <- <-. exact Hc.
Qed.

(** X7. The program only takes events from the front of the input and only
    adds to the end of the output: what is left of the input when [main]
    ends is a tail of the input it started with, and the output is the
    one it started with, a prompt, and what was written after it. *)
Theorem main_console_discipline w :
  (exists consumed, stdin w = consumed ++ stdin (snd (main w)))
  /\ (exists written, stdout (snd (main w)) = stdout w ++ "> " :: written).
Proof.
  unfold main, operate, alloc.
  pose proof (operate_fuel_loop
                (S (length (stdin w))) (length (heap w)) false
                (World (heap w ++ [[]]) (stdin w) (stdout w))
                (Nat.lt_succ_diag_r _)) as Hrun.
  destruct (operate_loop _ false _) as [r w'].
  apply operate_fuel_console in Hrun. cbn [stdin stdout] in Hrun.
  destruct r as [d'|[| |]]; exact Hrun.
Qed.

(** X8. A call of [operate] changes no dictionary but its own: given no
    database it leaves every object of the heap as it was, and given one
    it leaves every other object as it was; no object is ever removed. *)
Theorem operate_changes_own_database_only database tx w r w' :
  operate database tx w = (r, w') ->
  (forall d, database = Some d -> d < length (heap w)) ->
  length (heap w) <= length (heap w')
  /\ forall a, a < length (heap w) -> database <> Some a ->
               heap w' !! a = heap w !! a.
Proof.
  unfold operate, alloc. destruct database as [d|]; intros Hrun Hd.
  - destruct (operate_loop_frame _ _ _ _ _ Hrun (Hd d eq_refl))
      as (Hlen & Hsame & _).
    split; [assumption|]. intros a Ha Hne. apply Hsame; congruence.
  - destruct (operate_loop_frame _ _ _ _ _ Hrun) as (Hlen & Hsame & _);
      cbn [heap] in *.
    + rewrite length_app. cbn [length]. lia.
    + rewrite length_app in Hlen. cbn [length] in Hlen. split; [lia|].
      intros a Ha _. rewrite Hsame.
      * apply lookup_app_l. assumption.
      * rewrite length_app. cbn [length]. lia.
      * lia.
Qed.

(** X9. Once a transaction has been committed, the loop that read its [BEGIN]
    works on the object of the transaction: the dictionary it had before
    is a different object, which keeps the items it had at the [BEGIN]
    whatever comes next. *)
Theorem commit_leaves_old_object d tx h begin rest out d2 w2 r w' :
  d < length h ->
  reads Command.BEGIN [] begin = true ->
  operate_loop (length h) true
    (World (h ++ [default [] (h !! d)]) rest (out ++ ["> "]))
    = (Return d2, w2) ->
  operate_loop d2 tx w2 = (r, w') ->
  operate_loop d tx (World h (Typed begin :: rest) out) = (r, w')
  /\ d2 <> d
  /\ heap w' !! d = h !! d.
Proof.
  intros Hd Hb Hin Hnext.
  pose proof (turn_BEGIN d tx h begin rest out Hb) as Ht.
  destruct (operate_loop_frame _ _ _ _ _ Hin) as (Hlen1 & Hsame1 & Hret1);
    cbn [heap] in *; [rewrite length_app; cbn [length]; lia|].
  rewrite length_app in *. cbn [length] in *.
  destruct (Hret1 d2 eq_refl) as (Hd2 & Hfresh).
  destruct (operate_loop_frame _ _ _ _ _ Hnext Hd2) as (_ & Hsame & _).
  split; [|split].
  - rewrite (loop_Begin _ _ _ _ _ Ht), Hin. assumption.
  - lia.
  - rewrite Hsame by lia. rewrite Hsame1 by lia.
    apply lookup_app_l. assumption.
Qed.

Lemma operate_fuel_well_formed fuel : forall d tx w r w',
  operate_fuel fuel d tx w = Some (r, w') ->
  Forall well_formed (heap w) -> Forall well_formed (heap w').
Proof.
  induction fuel as [|fuel IH]; intros d tx w r w' H Hall; [discriminate|].
  rewrite operate_fuel_S in H. pose proof (turn_well_formed d tx w Hall) as Hw.
  destruct (turn d tx w) as [w1|c w1|res w1].
  - eapply IH; eassumption.
  - destruct (operate_fuel fuel c true w1) as [[[d2|e] w2]|] eqn:E;
      try discriminate.
    + eapply IH; [exact H|]. eapply IH; eassumption.
    + pose proof (IH _ _ _ _ _ E Hw) as Hw2. destruct e.
      * injection H as <- <-. assumption.
      * injection H as <- <-. assumption.
      * eapply IH; eassumption.
  - injection H as <- <-. assumption.
Qed.

(** X10. The keys of every dictionary stay pairwise distinct: if they are in
    the heap [main] starts with, as in the empty heap, they are in the
    one it ends with. *)
Theorem main_keeps_keys_distinct w :
  Forall well_formed (heap w) ->
  Forall well_formed (heap (snd (main w))).
Proof.
  intros Hall. unfold main, operate, alloc.
  pose proof (operate_fuel_loop
                (S (length (stdin w))) (length (heap w)) false
                (World (heap w ++ [[]]) (stdin w) (stdout w))
                (Nat.lt_succ_diag_r _)) as Hrun.
  destruct (operate_loop _ false _) as [r w'].
  apply operate_fuel_well_formed in Hrun.
  - destruct r as [d'|[| |]]; exact Hrun.
  - cbn [heap]. apply Forall_app. split; [assumption|].
    constructor; [constructor | constructor].
Qed.

(** ** Transactions in transactions *)

Lemma read_only_SET raw c key value :
  tokens raw = [c; key; value] -> upper c = Command.SET ->
  read_only raw = true -> False.
Proof.
  unfold read_only, mutates. intros -> ->. cbn. discriminate.
Qed.

Lemma read_only_UNSET raw c key :
  tokens raw = [c; key] -> upper c = Command.UNSET ->
  read_only raw = true -> False.
Proof.
  unfold read_only, mutates. intros -> ->. cbn. discriminate.
Qed.

(** X13. Through turns and whole transactions, committed or rolled back, that
    read no [SET] and no [UNSET], the database has the items it had, in
    the order it had them, though it may be another object. *)
Theorem read_only_run_keeps_items tx d w d' w' :
  reaches read_only tx d w d' w' ->
  d < length (heap w) ->
  d' < length (heap w')
  /\ default [] (heap w' !! d') = default [] (heap w !! d).
Proof.
  induction 1 as [tx d w
                 | tx d w raw w1 d' w' Hhead Hro Ht _ IH
                 | tx d w c w1 d2 w2 w3 d' w' Ht Hin IHin Hl _ IH
                 | tx d w c w1 d2 w2 w3 d' w' Ht Hin IHin Hl _ IH];
    intros Hd.
  - auto.
  - pose proof (turn_effect d tx w) as He. rewrite Ht in He.
    destruct He as (_ & Hlen & _).
    destruct IH as (Hd' & ->); [lia|]. split; [assumption|].
    destruct w as [h inp out]. cbn [stdin heap] in *.
    destruct inp as [|ev rest]; [discriminate|]. injection Hhead as ->.
    destruct (turn_Continue_heap _ _ _ _ _ _ _ Ht)
      as [-> | [(c & key & value & Htok & Hup & _)
               | (c & key & Htok & Hup & _)]].
    + reflexivity.
    + exfalso. eapply read_only_SET; eassumption.
    + exfalso. eapply read_only_UNSET; eassumption.
  - pose proof (turn_effect d tx w) as He. rewrite Ht in He.
    destruct He as (_ & -> & Hheap).
    destruct IHin as (Hd2 & Hk2);
      [rewrite Hheap, length_app; cbn [length]; lia|].
    pose proof (turn_effect d2 true w2) as He. rewrite Hl in He.
    destruct He as (_ & Hheap3 & _).
    destruct IH as (Hd' & ->); [rewrite Hheap3; assumption|].
    split; [assumption|]. rewrite Hheap3, Hk2, Hheap, lookup_snoc.
    reflexivity.
  - assert (Hrun : operate_loop c true w1
                   = (Raise TransactionRollbackException, w3)).
    { rewrite (reaches_loop _ _ _ _ _ _ Hin). apply loop_Leave. assumption. }
    pose proof (transaction_frame _ _ _ _ _ _ _ Ht Hrun d Hd) as Hsame.
    pose proof (turn_effect d tx w) as He. rewrite Ht in He.
    destruct He as (_ & -> & Hheap).
    destruct (operate_loop_frame _ _ _ _ _ Hrun) as (Hlen & _);
      [rewrite Hheap, length_app; cbn [length]; lia|].
    rewrite Hheap, length_app in Hlen. cbn [length] in Hlen.
    destruct IH as (Hd' & ->); [lia|].
    split; [assumption|]. rewrite Hsame. reflexivity.
Qed.


(** ** Order of the keys *)

Lemma setitem_new {V} k (v : V) (db : dict V) :
  getitem k db = None -> setitem k v db = db ++ [(k, v)].
Proof.
  induction db as [|[k0 v0] db IH]; cbn; [reflexivity|].
  destruct (k0 =? k); [discriminate|]. intros H. rewrite (IH H). reflexivity.
Qed.

(** X15. A key that is unset and then set again goes to the end: after
    [UNSET k; SET k v], [FIND v] lists the other keys that hold [v], in
    the order they had, and then [k]. *)
Theorem unset_set_moves_key_last d tx h unset1 set1 find1 rest out k v :
  d < length h ->
  well_formed (default [] (h !! d)) ->
  reads Command.UNSET [k] unset1 = true ->
  reads Command.SET [k; v] set1 = true ->
  reads Command.FIND [v] find1 = true ->
  exists h' out',
    reaches any_line tx d
      (World h (Typed unset1 :: Typed set1 :: Typed find1 :: rest) out)
      d (World h' rest
           (out' ++ [String.append
                       (join ", " (find_value v (pop k (default [] (h !! d)))
                                   ++ [k]))
                       newline])).
Proof.
  intros Hd Hwf Hu Hs Hf. do 2 eexists.
  by_turn turn_UNSET. by_turn turn_SET. by_turn turn_FIND.
  rewrite !list_lookup_insert_eq by (rewrite ?length_insert; assumption).
  cbn [default from_option id].
  rewrite (setitem_new k v _ (getitem_pop k _ Hwf)).
  rewrite (find_value_filter v (_ ++ _)), List.filter_app, map_app.
  rewrite <- find_value_filter. cbn [List.filter snd].
  rewrite String.eqb_refl. cbn [map fst]. apply reaches_here.
Qed.

(** ** Lines from tokens *)

(** X16. Tokens joined by one space are read back as they were: for words
    that are not empty and have no space, the tokens of the line made of
    them are these words. *)
Theorem tokens_of_joined_words words :
  forallb (fun word => negb (word =? "") && space_free word) words = true ->
  tokens (join " " words) = words.
Proof.
  unfold join. induction words as [|word words IH]; [reflexivity|].
  cbn [forallb]. intros H. apply andb_prop in H as [Hw Hws].
  apply andb_prop in Hw as [Hne Hfree].
  assert (Hne' : word <> "").
  { intros ->. discriminate. }
  destruct words as [|word' words].
  - cbn [String.concat]. rewrite <- (append_empty word) at 1.
    rewrite tokens_word; [reflexivity | assumption | assumption | auto].
  - change (String.concat " " (word :: word' :: words))
      with (String.append word
              (String " "%char (String.concat " " (word' :: words)))).
    rewrite tokens_word; [|assumption | assumption | eauto].
    rewrite tokens_space, (IH Hws). reflexivity.
Qed.

End Interpreter.

(** * The theorems at work on sessions typed in ASCII *)

Lemma commit_replaces_parent_store_witness :
  operate_loop str_upper_ascii 0 false
    (World [[]] [Typed "BEGIN"; Typed "SET k 1"; Typed "begin";
                 Typed "set k 2"; Typed "COMMIT"; Typed "commit";
                 Typed "GET k"] [])
  = (Raise ExitException,
     World [[]; [("k", "1")]; [("k", "2")]] []
           ["> "; "> "; "> "; "> "; "> "; "> "; "> ";
            String.append "2" newline; "> "]).
Proof.
  destruct (commit_replaces_parent_store str_upper_ascii 0 false [[]] [] []
              "k" "1" "2" "BEGIN" "SET k 1" "begin" "set k 2" "COMMIT"
              "commit" "rollback" "GET k")
    as (_ & _ & Hrun & _);
    [cbn; lia | reflexivity | reflexivity | reflexivity | reflexivity
    | reflexivity | reflexivity | reflexivity | reflexivity |].
  exact (eq_trans Hrun eq_refl).
Defined.

Lemma rollback_restores_parent_store_witness :
  operate_loop str_upper_ascii 0 false
    (World [[]] [Typed "SET k 1"; Typed "BEGIN"; Typed "SET k 2";
                 Typed "ROLLBACK"; Typed "GET k"] [])
  = (Raise ExitException,
     World [[("k", "1")]; [("k", "2")]] []
           ["> "; "> "; "> "; "> "; "> "; String.append "1" newline; "> "]).
Proof.
  destruct (rollback_restores_parent_store str_upper_ascii 0 false [[]] [] []
              "k" "1" "2" "SET k 1" "BEGIN" "SET k 2" "ROLLBACK" "GET k")
    as (_ & _ & _ & _ & Hrun & _);
    [cbn; lia | reflexivity | reflexivity | reflexivity | reflexivity
    | reflexivity |].
  exact (eq_trans Hrun eq_refl).
Defined.

Lemma set_then_get_witness :
  operate_loop str_upper_ascii 0 false
    (World [[]] [Typed "SET k 1"; Typed "SET j 2"; Typed "BEGIN";
                 Typed "SET k 2"; Typed "ROLLBACK"; Typed "GET k";
                 Typed "END"] [])
  = operate_loop str_upper_ascii 0 false
      (World [[("k", "1"); ("j", "2")]; [("k", "2"); ("j", "2")]]
             [Typed "END"]
             ((["> "; "> "; "> "; "> "; "> "] ++ ["> "])
              ++ [String.append "1" newline]))
  /\ getitem "k"
       (default [] ([[("k", "1"); ("j", "2")]; [("k", "2"); ("j", "2")]] !! 0))
     = Some "1".
Proof.
  apply (set_then_get str_upper_ascii 0 false [[]] []
           [Typed "SET j 2"; Typed "BEGIN"; Typed "SET k 2"; Typed "ROLLBACK";
            Typed "GET k"; Typed "END"]
           "k" "1" "SET k 1" 0
           [[("k", "1"); ("j", "2")]; [("k", "2"); ("j", "2")]]
           "GET k" [Typed "END"] ["> "; "> "; "> "; "> "; "> "]).
  - cbn. lia.
  - reflexivity.
  - reflexivity.
  - eapply undisturbed_turn; [reflexivity | reflexivity | reflexivity |].
    eapply undisturbed_rollback.
    + reflexivity.
    + reflexivity.
    + apply undisturbed_here.
Defined.


Lemma read_commands_change_nothing_witness :
  exists text,
    turn str_upper_ascii 0 true (World [[("a", "1")]] [Typed "COUNTS 1"] [])
    = Continue (World [[("a", "1")]] [] ((([] : list string) ++ ["> "]) ++ [text])).
Proof.
  destruct (read_commands_change_nothing str_upper_ascii 0 true
              [[("a", "1")]] "COUNTS 1" [] [] "1") as (text & Ht & _);
    [reflexivity|].
  exists text. exact Ht.
Defined.

Lemma get_NULL_is_absent_witness :
  turn str_upper_ascii 0 false (World [[("k", "NULL")]] [Typed "GET k"] [])
    = Continue (World [[("k", "NULL")]] []
        ((([] : list string) ++ ["> "]) ++ [String.append "NULL" newline]))
  /\ turn str_upper_ascii 0 false (World [[]] [Typed "GET k"] [])
     = Continue (World [[]] []
        ((([] : list string) ++ ["> "]) ++ [String.append "NULL" newline])).
Proof.
  apply (get_NULL_is_absent str_upper_ascii 0 false [[("k", "NULL")]] "GET k"
           "k" 0 [[]] "GET k" "k" [] []); reflexivity.
Defined.

Lemma find_prints_matching_keys_witness :
  turn str_upper_ascii 0 false
    (World [[("a", "20"); ("b", "10"); ("c", "20")]] [Typed "FIND 20"] [])
  = Continue (World [[("a", "20"); ("b", "10"); ("c", "20")]] []
       ((([] : list string) ++ ["> "]) ++ [String.append "a, c" newline])).
Proof.
  apply (find_prints_matching_keys str_upper_ascii 0 false
           [[("a", "20"); ("b", "10"); ("c", "20")]] "FIND 20" [] [] "20").
  - reflexivity.
  - cbn. unfold well_formed. cbn.
    repeat (constructor; [cbn; intuition discriminate|]). constructor.
Defined.

Lemma terminate_propagates_witness :
  main str_upper_ascii
    (World [] [Typed "BEGIN"; Typed "SET a 1"; Typed "end"; Typed "GET a"] [])
  = (Return tt,
     World [[]; [("a", "1")]] [Typed "GET a"] (["> "; "> "] ++ ["> "])).
Proof.
  refine (proj2 (proj2 (terminate_propagates str_upper_ascii false 0
     (World [[]] [Typed "BEGIN"; Typed "SET a 1"; Typed "end"; Typed "GET a"] [])
     1 true 1
     (World [[]; [("a", "1")]] [Typed "end"; Typed "GET a"] ["> "; "> "])
     _ _))
     (World [] [Typed "BEGIN"; Typed "SET a 1"; Typed "end"; Typed "GET a"] [])
     eq_refl eq_refl).
  - eapply inside_begin; [apply reaches_here | reflexivity |].
    apply inside_here.
    eapply reaches_turn; [reflexivity | reflexivity | reflexivity |].
    apply reaches_here.
  - reflexivity.
Defined.


Lemma tokens_split_on_spaces_witness :
  tokens (String.append (String.append "a" (String.append tab "b")) " c")
  = String.append "a" (String.append tab "b") :: tokens " c".
Proof.
  apply (tokens_split_on_spaces str_upper_ascii
           (String.append "a" (String.append tab "b")) " c").
  - discriminate.
  - reflexivity.
  - right. exists "c". reflexivity.
Defined.

(** * Where the program departs from the claims *)

(** C3 as claimed does not hold: after [SET k 1] the call reads [BEGIN]
    and then [GET k], no [SET] and no [UNSET]; the [SET k 2] is read by
    the transaction, and once this is committed [GET k] prints [2]. *)
Lemma committed_set_overwrites :
  operate_loop str_upper_ascii 0 false
    (World [[]] [Typed "SET k 1"; Typed "BEGIN"; Typed "SET k 2";
                 Typed "COMMIT"; Typed "GET k"] [])
  = (Raise ExitException,
     World [[("k", "1")]; [("k", "2")]] []
           ["> "; "> "; "> "; "> "; "> "; String.append "2" newline; "> "])
  /\ turn str_upper_ascii 1 true
       (World [[("k", "1")]; [("k", "1")]]
              [Typed "SET k 2"; Typed "COMMIT"; Typed "GET k"]
              ["> "; "> "])
     = Continue (World [[("k", "1")]; [("k", "2")]]
                       [Typed "COMMIT"; Typed "GET k"] ["> "; "> "; "> "])
  /\ String.append "2" newline <> String.append "1" newline.
Proof.
  split; [reflexivity|]. split; [reflexivity|]. discriminate.
Qed.


(** C6 as claimed does not hold: a tab between the fields does not cut
    the line, which is then one token and fails the validation, while
    the same fields with spaces are a [SET]. *)
Lemma tab_does_not_separate :
  tokens tabbed_line = [tabbed_line]
  /\ tokens "SET a b" = ["SET"; "a"; "b"]
  /\ tokens tabbed_line <> tokens "SET a b"
  /\ turn str_upper_ascii 0 false (World [[]] [Typed tabbed_line] [])
     = Continue (World [[]] []
         ["> "; String.append validation_message newline])
  /\ turn str_upper_ascii 0 false (World [[]] [Typed "SET a b"] [])
     = Continue (World [[("a", "b")]] [] ["> "]).
Proof.
  split; [reflexivity|]. split; [reflexivity|].
  split; [vm_compute; discriminate|]. split; reflexivity.
Qed.

(** * The further properties at work *)

Lemma unset_then_get_witness :
  getitem "k" (default [] ([[("j", "2")]] !! 0)) = None.
Proof.
  refine (proj2 (unset_then_get str_upper_ascii 0 false [[("k", "1")]] []
            [Typed "SET j 2"; Typed "GET k"] "k" "UNSET k" 0 [[("j", "2")]]
            "GET k" [] ["> "; "> "] _ _ _ _ _)).
  - cbn. lia.
  - cbn. unfold well_formed. cbn.
    repeat (constructor; [cbn; intuition discriminate|]). constructor.
  - reflexivity.
  - reflexivity.
  - eapply reaches_turn; [reflexivity | reflexivity | reflexivity |].
    apply reaches_here.
Defined.

Lemma unset_absent_changes_nothing_witness :
  turn str_upper_ascii 0 false (World [[("a", "1")]] [Typed "unset b"] [])
  = Continue (World [[("a", "1")]] [] (([] : list string) ++ ["> "])).
Proof.
  apply (unset_absent_changes_nothing str_upper_ascii 0 false [[("a", "1")]]
           "unset b" [] [] "b"); reflexivity.
Defined.

Lemma counts_is_number_of_found_witness :
  length (find_value "20" (default [] ([[("a", "20"); ("b", "20")]] !! 0)))
  <= length (keys (default [] ([[("a", "20"); ("b", "20")]] !! 0))).
Proof.
  refine (proj2 (counts_is_number_of_found str_upper_ascii 0 false
            [[("a", "20"); ("b", "20")]] "COUNTS 20" [] [] "20" _)).
  reflexivity.
Defined.

Lemma command_read_in_upper_case_witness :
  turn str_upper_ascii 0 false (World [[]] [Typed "set a B"] [])
  = turn str_upper_ascii 0 false (World [[]] [Typed "  SeT  a   B "] []).
Proof.
  apply (command_read_in_upper_case str_upper_ascii 0 false [[]]
           "set a B" "  SeT  a   B " [] [] "set" "SeT" ["a"; "B"]);
    reflexivity.
Defined.

Lemma validated_operation_shape_witness :
  exists c,
    (str_upper_ascii c = Command.SET
     /\ exists key value, ["set"; "a"; "1"] = [c; key; value])
    \/ (In (str_upper_ascii c)
           [Command.GET; Command.UNSET; Command.COUNTS; Command.FIND]
        /\ exists arg, ["set"; "a"; "1"] = [c; arg])
    \/ (In (str_upper_ascii c)
           [Command.END; Command.BEGIN; Command.ROLLBACK; Command.COMMIT]
        /\ ["set"; "a"; "1"] = [c]).
Proof.
  apply (validated_operation_shape str_upper_ascii ["set"; "a"; "1"]).
  reflexivity.
Defined.

Lemma operate_changes_own_database_only_witness :
  length [[("a", "1")]; [("b", "2")]]
  <= length [[("a", "1")]; [("b", "3")]; [("b", "3"); ("c", "4")]]
  /\ forall a, a < length [[("a", "1")]; [("b", "2")]] -> Some 1 <> Some a ->
       [[("a", "1")]; [("b", "3")]; [("b", "3"); ("c", "4")]] !! a
       = [[("a", "1")]; [("b", "2")]] !! a.
Proof.
  apply (operate_changes_own_database_only str_upper_ascii (Some 1) true
           (World [[("a", "1")]; [("b", "2")]]
                  [Typed "SET b 3"; Typed "BEGIN"; Typed "SET c 4";
                   Typed "COMMIT"; Typed "COMMIT"] [])
           (Return 2)
           (World [[("a", "1")]; [("b", "3")]; [("b", "3"); ("c", "4")]] []
                  ["> "; "> "; "> "; "> "; "> "])).
  - reflexivity.
  - intros d [= <-]. cbn. lia.
Defined.

Lemma commit_leaves_old_object_witness :
  operate_loop str_upper_ascii 0 false
    (World [[("a", "1")]]
           [Typed "BEGIN"; Typed "SET a 2"; Typed "COMMIT"; Typed "SET a 3"] [])
  = (Raise ExitException,
     World [[("a", "1")]; [("a", "3")]] []
           ["> "; "> "; "> "; "> "; "> "])
  /\ 1 <> 0
  /\ [[("a", "1")]; [("a", "3")]] !! 0 = [[("a", "1")]] !! 0.
Proof.
  apply (commit_leaves_old_object str_upper_ascii 0 false [[("a", "1")]]
           "BEGIN" [Typed "SET a 2"; Typed "COMMIT"; Typed "SET a 3"] []
           1 (World [[("a", "1")]; [("a", "2")]] [Typed "SET a 3"]
                    ["> "; "> "; "> "])
           (Raise ExitException)
           (World [[("a", "1")]; [("a", "3")]] []
                  ["> "; "> "; "> "; "> "; "> "])).
  - cbn. lia.
  - reflexivity.
  - reflexivity.
  - reflexivity.
Defined.

Lemma main_keeps_keys_distinct_witness :
  Forall well_formed
    (heap (snd (main str_upper_ascii
                  (World [] [Typed "SET a 1"; Typed "SET a 2"] [])))).
Proof.
  apply (main_keeps_keys_distinct str_upper_ascii
           (World [] [Typed "SET a 1"; Typed "SET a 2"] [])).
  constructor.
Defined.

Lemma read_only_run_keeps_items_witness :
  1 < length [[("a", "1")]; [("a", "1")]]
  /\ default [] ([[("a", "1")]; [("a", "1")]] !! 1)
     = default [] ([[("a", "1")]] !! 0).
Proof.
  apply (read_only_run_keeps_items str_upper_ascii false 0
           (World [[("a", "1")]]
                  [Typed "GET a"; Typed "BEGIN"; Typed "FIND 1";
                   Typed "COMMIT"] [])
           1
           (World [[("a", "1")]; [("a", "1")]] []
                  ["> "; String.append "1" newline; "> "; "> ";
                   String.append "a" newline; "> "])).
  - eapply reaches_turn; [reflexivity | reflexivity | reflexivity |].
    eapply reaches_commit.
    + reflexivity.
    + eapply reaches_turn; [reflexivity | reflexivity | reflexivity |].
      apply reaches_here.
    + reflexivity.
    + apply reaches_here.
  - cbn. lia.
Defined.


Lemma unset_set_moves_key_last_witness :
  exists h' out',
    reaches str_upper_ascii any_line false 0
      (World [[("a", "1"); ("b", "1")]]
             [Typed "UNSET a"; Typed "SET a 1"; Typed "FIND 1"] [])
      0 (World h' []
           (out' ++ [String.append
                       (join ", "
                          (find_value "1"
                             (pop "a" (default []
                                         ([[("a", "1"); ("b", "1")]] !! 0)))
                           ++ ["a"]))
                       newline])).
Proof.
  apply (unset_set_moves_key_last str_upper_ascii 0 false
           [[("a", "1"); ("b", "1")]] "UNSET a" "SET a 1" "FIND 1" [] []
           "a" "1").
  - cbn. lia.
  - cbn. unfold well_formed. cbn.
    repeat (constructor; [cbn; intuition discriminate|]). constructor.
  - reflexivity.
  - reflexivity.
  - reflexivity.
Defined.

Lemma tokens_of_joined_words_witness :
  tokens (join " " ["SET"; "key"; "value"]) = ["SET"; "key"; "value"].
Proof.
  apply (tokens_of_joined_words ["SET"; "key"; "value"]). reflexivity.
Defined.
